(** * Costos de importacion: the two-phase cost allocator and its parsers

    A shallow embedding of [calculateDistributedCosts], [parseProductsFile],
    [parseServicesFile] and [handleProcess] of the [App] component, of the
    unit cost and factor columns of the results table and of the report, and
    of the record types of the [types] module, followed by the properties of
    the allocation and of the parsers that the specification states, and by
    further properties that the code shows.

    Numbers.  A JavaScript [number] is modelled as an exact rational ([Qc],
    canonical fractions, so that [===] on numbers is Leibniz equality).
    Rounding and the non-finite doubles are outside that model: the
    properties that need exact arithmetic say so, and module [Float64] holds
    the allocation over the binary64 floats of the machine, to evaluate the
    code where rounding or overflow decides.  The arrays
    are lists; an object of [tempProcessedProducts] is identified by its
    index, so that the writes of step 2 are updates of a list cell.

    Strings.  A string is a [string] of bytes; [trim] and [toLowerCase] are
    modelled on the ASCII range. *)

From Stdlib Require Import QArith Qcanon Ascii String.
From Stdlib Require PrimFloat.
From stdpp Require Import base list numbers strings.

Local Open Scope Qc_scope.

(** ** The types module *)

Record Product := mkProduct {
  name : string;
  unitCost : Qc;
  quantity : Qc;
  tariffRate : string
}.

Record Service := mkService {
  providerName : string;
  serviceName : string;
  cost : Qc;
  distributionRule : string
}.

(** [ProcessedProduct extends Product]: the four inherited fields are kept
    together in [product]. *)
Record ProcessedProduct := mkProcessed {
  product : Product;
  initialCost : Qc;
  costAfterGeneralServices : Qc;
  finalCost : Qc;
  allocatedGeneralCostSum : Qc;
  allocatedSpecificCostSum : Qc
}.

(** ** String helpers *)

Definition toLowerAscii (c : ascii) : ascii :=
  let n := N_of_ascii c in
  if ((65 <=? n) && (n <=? 90))%N then ascii_of_N (n + 32) else c.

Fixpoint toLowerCase (s : string) : string :=
  match s with
  | EmptyString => EmptyString
  | String c t => String (toLowerAscii c) (toLowerCase t)
  end.

(** ** calculateDistributedCosts *)

(** [xs.reduce((sum, x) => sum + f(x), 0)] *)
Definition sumOf {A} (f : A → Qc) (xs : list A) : Qc :=
  fold_left (λ sum x, sum + f x) xs 0.

(** The object built by the first [products.map]. *)
Definition initProcessed (p : Product) : ProcessedProduct :=
  {| product := p;
     initialCost := unitCost p * quantity p;
     costAfterGeneralServices := unitCost p * quantity p;
     finalCost := unitCost p * quantity p;
     allocatedGeneralCostSum := 0;
     allocatedSpecificCostSum := 0 |}.

(** [s.distributionRule.toLowerCase() === 'comun'] *)
Definition isComun (s : Service) : Prop :=
  toLowerCase (distributionRule s) = "comun"%string.

Global Instance isComun_dec s : Decision (isComun s).
Proof. unfold isComun. apply _. Defined.

Definition comunServices (services : list Service) : list Service :=
  filter isComun services.

Definition totalComunServiceCost (services : list Service) : Qc :=
  sumOf cost (comunServices services).

Definition totalInitialProductValue (tpp : list ProcessedProduct) : Qc :=
  sumOf initialCost tpp.

(** The object returned by the arrow function of step 1. *)
Definition addGeneral (a : Qc) (p : ProcessedProduct) : ProcessedProduct :=
  {| product := product p;
     initialCost := initialCost p;
     costAfterGeneralServices := costAfterGeneralServices p + a;
     finalCost := finalCost p + a;
     allocatedGeneralCostSum := allocatedGeneralCostSum p + a;
     allocatedSpecificCostSum := allocatedSpecificCostSum p |}.

(** Step 1: distribute the "comun" services. *)
Definition distributeComun (services : list Service)
    (tpp : list ProcessedProduct) : list ProcessedProduct :=
  let total := totalComunServiceCost services in
  let value := totalInitialProductValue tpp in
  if decide (0 < total ∧ 0 < value) then
    (λ p, addGeneral (initialCost p / value * total) p) <$> tpp
  else tpp.

(** [Array.from(new Set(xs))]: a Set keeps the first occurrence of each
    value, in insertion order. *)
Definition setAdd (acc : list string) (x : string) : list string :=
  if decide (x ∈ acc) then acc else acc ++ [x].

Definition arrayFromSet (xs : list string) : list string :=
  fold_left setAdd xs [].

Definition specificTariffRules (services : list Service) : list string :=
  arrayFromSet (distributionRule <$> filter (λ s, ¬ isComun s) services).

Definition servicesForThisRule (services : list Service)
    (specificRule : string) : list Service :=
  filter (λ s, distributionRule s = specificRule) services.

Definition totalCostForThisRule (services : list Service)
    (specificRule : string) : Qc :=
  sumOf cost (servicesForThisRule services specificRule).

(** [tempProcessedProducts] is an array of distinct objects, and
    [matchingProducts] holds references to some of them: a reference is
    modelled as the index of the object in the array. *)
Fixpoint indicesFrom {A} (P : A → Prop) `{∀ x, Decision (P x)}
    (i : nat) (xs : list A) : list nat :=
  match xs with
  | [] => []
  | x :: t =>
      if decide (P x) then i :: indicesFrom P (S i) t
      else indicesFrom P (S i) t
  end.

(** [p.tariffRate === specificRule] *)
Definition hasRate (specificRule : string) (p : ProcessedProduct) : Prop :=
  tariffRate (product p) = specificRule.

Global Instance hasRate_dec r p : Decision (hasRate r p).
Proof. unfold hasRate. apply _. Defined.

Definition matchingProducts (tpp : list ProcessedProduct)
    (specificRule : string) : list nat :=
  indicesFrom (hasRate specificRule) 0 tpp.

(** The value of field [f] of the object behind reference [i]. *)
Definition deref (tpp : list ProcessedProduct) (f : ProcessedProduct → Qc)
    (i : nat) : Qc :=
  from_option f 0 (tpp !! i).

Definition totalBaseCostForSpecificDistribution
    (tpp : list ProcessedProduct) (matching : list nat) : Qc :=
  sumOf (deref tpp costAfterGeneralServices) matching.

(** The predicate of the [findIndex] call. *)
Definition sameProduct (mp p : ProcessedProduct) : Prop :=
  name (product p) = name (product mp)
  ∧ tariffRate (product p) = tariffRate (product mp)
  ∧ unitCost (product p) = unitCost (product mp)
  ∧ quantity (product p) = quantity (product mp).

Global Instance sameProduct_dec mp p : Decision (sameProduct mp p).
Proof. unfold sameProduct. apply _. Defined.

(** [xs.findIndex(P)]; [None] stands for -1. *)
Definition findIndex {A} (P : A → Prop) `{∀ x, Decision (P x)}
    (xs : list A) : option nat :=
  fst <$> list_find P xs.

(** The two [+=] on the object at [productIndex]. *)
Definition addSpecific (a : Qc) (p : ProcessedProduct) : ProcessedProduct :=
  {| product := product p;
     initialCost := initialCost p;
     costAfterGeneralServices := costAfterGeneralServices p;
     finalCost := finalCost p + a;
     allocatedGeneralCostSum := allocatedGeneralCostSum p;
     allocatedSpecificCostSum := allocatedSpecificCostSum p + a |}.

(** Body of [matchingProducts.forEach]: [mp] is read through its reference
    in the current array (the references of [matchingProducts] are indices
    of the array, so the first [None] does not occur in a run; the second
    [None] is [productIndex === -1]). *)
Definition allocateTo (totalBase totalCost : Qc)
    (tpp : list ProcessedProduct) (mpRef : nat) : list ProcessedProduct :=
  match tpp !! mpRef with
  | None => tpp
  | Some mp =>
      match findIndex (sameProduct mp) tpp with
      | None => tpp
      | Some productIndex =>
          let allocatedSpecificCost :=
            costAfterGeneralServices mp / totalBase * totalCost in
          alter (addSpecific allocatedSpecificCost) productIndex tpp
      end
  end.

(** Body of [specificTariffRules.forEach]. *)
Definition distributeRule (services : list Service)
    (tpp : list ProcessedProduct) (specificRule : string)
    : list ProcessedProduct :=
  let totalCost := totalCostForThisRule services specificRule in
  let matching := matchingProducts tpp specificRule in
  if decide (length matching = 0%nat) then tpp
  else
    let totalBase := totalBaseCostForSpecificDistribution tpp matching in
    if decide (0 < totalCost ∧ 0 < totalBase) then
      fold_left (allocateTo totalBase totalCost) matching tpp
    else tpp.

(** Step 2: distribute the specific tariff services. *)
Definition distributeSpecific (services : list Service)
    (tpp : list ProcessedProduct) : list ProcessedProduct :=
  fold_left (distributeRule services) (specificTariffRules services) tpp.

Definition calculateDistributedCosts (products : list Product)
    (services : list Service) : list ProcessedProduct :=
  distributeSpecific services
    (distributeComun services (initProcessed <$> products)).

(** ** Text helpers of the parsers *)

(** [s.split(sep)] for a one-character separator. *)
Fixpoint split (sep : ascii) (s : string) : list string :=
  match s with
  | EmptyString => [EmptyString]
  | String c t =>
      if decide (c = sep) then EmptyString :: split sep t
      else match split sep t with
           | [] => [String c EmptyString]
           | part :: parts => String c part :: parts
           end
  end.

Fixpoint trimStart (s : string) : string :=
  match s with
  | EmptyString => EmptyString
  | String c t => if Ascii.is_space c then trimStart t else s
  end.

Definition trim (s : string) : string :=
  String.rev (trimStart (String.rev (trimStart s))).

(** The longest prefix of decimal digits, and what follows it. *)
Fixpoint spanDigits (s : string) : list nat * string :=
  match s with
  | EmptyString => ([], EmptyString)
  | String c t =>
      match Ascii.is_nat c with
      | Some d => let '(ds, rest) := spanDigits t in (d :: ds, rest)
      | None => ([], s)
      end
  end.

Definition digitsValue (ds : list nat) : Z :=
  fold_left (λ acc d, 10 * acc + Z.of_nat d)%Z ds 0%Z.

Definition readSign (s : string) : bool * string :=
  match s with
  | String "-" t => (true, t)
  | String "+" t => (false, t)
  | _ => (false, s)
  end.

Definition signed (negative : bool) (x : Qc) : Qc :=
  if negative then - x else x.

Definition pow10 (e : Z) : Qc :=
  if (0 <=? e)%Z then Qc_of_Z (10 ^ e) else / Qc_of_Z (10 ^ (- e)).

(** The exponent part of a decimal literal, 0 when there is none. *)
Definition readExponent (s : string) : Z :=
  match s with
  | String c t =>
      if decide (c = "e"%char ∨ c = "E"%char) then
        let '(negative, t1) := readSign t in
        match spanDigits t1 with
        | ([], _) => 0%Z
        | (ds, _) => if negative then (- digitsValue ds)%Z else digitsValue ds
        end
      else 0%Z
  | EmptyString => 0%Z
  end.

(** [parseFloat(s)] on decimal literals: the value of the longest prefix
    that is a decimal literal, [None] (NaN) when there is none. *)
Definition parseFloat (s : string) : option Qc :=
  let '(negative, s1) := readSign (trimStart s) in
  let '(intDigits, s2) := spanDigits s1 in
  let '(fracDigits, s3) :=
    match s2 with
    | String "." t => spanDigits t
    | _ => ([], s2)
    end in
  match intDigits ++ fracDigits with
  | [] => None
  | ds =>
      let scale := Qc_of_Z (10 ^ Z.of_nat (length fracDigits)) in
      Some (signed negative
              (Qc_of_Z (digitsValue ds) / scale * pow10 (readExponent s3)))
  end.

(** [parseInt(s, 10)] *)
Definition parseInt (s : string) : option Qc :=
  let '(negative, s1) := readSign (trimStart s) in
  match spanDigits s1 with
  | ([], _) => None
  | (ds, _) => Some (signed negative (Qc_of_Z (digitsValue ds)))
  end.

(** ** Exceptions *)

(** A callback either returns or throws. *)
Inductive result (E A : Type) : Type :=
  | Return (a : A)
  | Throw (e : E).
Global Arguments Return {E A} a.
Global Arguments Throw {E A} e.

(** [xs.map((x, index) => f(x, index))] with a callback that can throw: the
    first exception aborts the map and no array is produced. *)
Fixpoint mapIndexed {E A B} (f : A → nat → result E B) (index : nat)
    (xs : list A) : result E (list B) :=
  match xs with
  | [] => Return []
  | x :: t =>
      match f x index with
      | Throw e => Throw e
      | Return y =>
          match mapIndexed f (S index) t with
          | Throw e => Throw e
          | Return ys => Return (y :: ys)
          end
      end
  end.

(** What the message of an [Error] of the parsers says after the line
    number. *)
Inductive ParseProblem : Type :=
  | ExpectedFourFields (line : string)
  | InvalidUnitCost (unitCostStr : string)
  | InvalidQuantity (quantityStr : string)
  | EmptyName
  | EmptyTariffRate
  | InvalidServiceCost (costStr : string)
  | EmptyProviderName
  | EmptyServiceName
  | EmptyDistributionRule.

(** [new Error(`... línea ${lineNumber}: ...`)] *)
Record ParseError := mkParseError {
  lineNumber : nat;
  problem : ParseProblem
}.

(** ** parseProductsFile and parseServicesFile *)

(** [content.split('\n').filter(line => line.trim() !== '')] *)
Definition nonBlankLines (content : string) : list string :=
  filter (λ line, trim line ≠ EmptyString) (split "010" content).

Definition parseProductLine (line : string) (index : nat)
    : result ParseError Product :=
  match trim <$> split "," line with
  | [name; unitCostStr; quantityStr; tariffRate] =>
      match parseFloat unitCostStr with
      | None => Throw (mkParseError (index + 1) (InvalidUnitCost unitCostStr))
      | Some unitCost =>
          if decide (unitCost < 0) then
            Throw (mkParseError (index + 1) (InvalidUnitCost unitCostStr))
          else
            match parseInt quantityStr with
            | None =>
                Throw (mkParseError (index + 1) (InvalidQuantity quantityStr))
            | Some quantity =>
                if decide (quantity < 0) then
                  Throw (mkParseError (index + 1) (InvalidQuantity quantityStr))
                else if decide (name = EmptyString) then
                  Throw (mkParseError (index + 1) EmptyName)
                else if decide (tariffRate = EmptyString) then
                  Throw (mkParseError (index + 1) EmptyTariffRate)
                else Return (mkProduct name unitCost quantity tariffRate)
            end
      end
  | _ => Throw (mkParseError (index + 1) (ExpectedFourFields line))
  end.

Definition parseProductsFile (content : string)
    : result ParseError (list Product) :=
  mapIndexed parseProductLine 0 (nonBlankLines content).

Definition parseServiceLine (line : string) (index : nat)
    : result ParseError Service :=
  match split "," line with
  | [part0; part1; part2; part3] =>
      let providerName := trim part0 in
      let serviceName := trim part1 in
      let costStr := trim part2 in
      let distributionRule := trim part3 in
      match parseFloat costStr with
      | None => Throw (mkParseError (index + 1) (InvalidServiceCost costStr))
      | Some cost =>
          if decide (cost < 0) then
            Throw (mkParseError (index + 1) (InvalidServiceCost costStr))
          else if decide (providerName = EmptyString) then
            Throw (mkParseError (index + 1) EmptyProviderName)
          else if decide (serviceName = EmptyString) then
            Throw (mkParseError (index + 1) EmptyServiceName)
          else if decide (distributionRule = EmptyString) then
            Throw (mkParseError (index + 1) EmptyDistributionRule)
          else Return (mkService providerName serviceName cost distributionRule)
      end
  | _ => Throw (mkParseError (index + 1) (ExpectedFourFields line))
  end.

Definition parseServicesFile (content : string)
    : result ParseError (list Service) :=
  mapIndexed parseServiceLine 0 (nonBlankLines content).

(** ** handleProcess *)

(** What [handleProcess] leaves in the state of the component when it does
    not reach the results: the message of [setError]. *)
Inductive ProcessError : Type :=
  | FilesMissing
  | ParseFailed (e : ParseError)
  | NoValidProducts.

(** What [handleProcess] leaves in the state of the component when it
    succeeds: the parsed inputs, the three totals and the results. *)
Record Report := mkReport {
  inputProducts : list Product;
  inputServices : list Service;
  totalProductCost : Qc;
  totalServiceCost : Qc;
  totalGlobalCost : Qc;
  processedProducts : list ProcessedProduct
}.

(** The state after the handler has run, as a function of the two file
    contents (the pause and the loading flag are left out). *)
Definition handleProcess (productsFileContent servicesFileContent : string)
    : result ProcessError Report :=
  if decide (productsFileContent = EmptyString
             ∨ servicesFileContent = EmptyString) then Throw FilesMissing
  else
    match parseProductsFile productsFileContent with
    | Throw e => Throw (ParseFailed e)
    | Return parsedProducts =>
        match parseServicesFile servicesFileContent with
        | Throw e => Throw (ParseFailed e)
        | Return parsedServices =>
            if decide (length parsedProducts = 0%nat) then
              Throw NoValidProducts
            else
              let currentTotalProductCost :=
                sumOf (λ p, unitCost p * quantity p) parsedProducts in
              let currentTotalServiceCost := sumOf cost parsedServices in
              let currentTotalGlobalCost :=
                currentTotalProductCost + currentTotalServiceCost in
              Return
                {| inputProducts := parsedProducts;
                   inputServices := parsedServices;
                   totalProductCost := currentTotalProductCost;
                   totalServiceCost := currentTotalServiceCost;
                   totalGlobalCost := currentTotalGlobalCost;
                   processedProducts :=
                     calculateDistributedCosts parsedProducts parsedServices |}
        end
    end.

(** ** The rows of the results table and of the report *)

(** [product.quantity > 0 ? product.finalCost / product.quantity : 0] *)
Definition finalUnitCost (p : ProcessedProduct) : Qc :=
  if decide (0 < quantity (product p)) then finalCost p / quantity (product p)
  else 0.

(** The text of the factor column: "N/A", a ratio printed with four
    decimals and an "x" ([Times ratio], the ratio before it is printed), or
    "Infinito". *)
Inductive CostIncreaseFactor : Type :=
  | NotApplicable
  | Times (ratio : Qc)
  | Infinito.

Definition costIncreaseFactor (p : ProcessedProduct) : CostIncreaseFactor :=
  if decide (0 < unitCost (product p) ∧ 0 < quantity (product p)
             ∧ 0 < finalUnitCost p) then
    Times (finalUnitCost p / unitCost (product p))
  else if decide (unitCost (product p) = 0 ∧ 0 < finalUnitCost p
                  ∧ 0 < quantity (product p)) then Infinito
  else NotApplicable.

(** ** Inputs of the scenarios of the specification *)

Definition num (z : Z) : Qc := Qc_of_Z z.

(** Scenario A: one product, one general service. *)
Definition productsA : list Product :=
  [mkProduct "Widget" (num 10) (num 5) "R1"].
Definition servicesA : list Service :=
  [mkService "P1" "Freight" (num 50) "comun"].

(** Scenario B: two products, one service of the tariff rate of the first. *)
Definition productsB : list Product :=
  [mkProduct "A" (num 10) (num 10) "T1"; mkProduct "B" (num 20) (num 5) "T2"].
Definition servicesB : list Service :=
  [mkService "X" "Tax" (num 30) "T1"].

(** Scenario C: scenario B with a service of a rule that no product has. *)
Definition orphanService : Service :=
  mkService "Y" "Storage" (num 40) "T9".

(** Two product lines with the same name, unit cost, quantity and tariff
    rate, and one service of that tariff rate. *)
Definition productsTwice : list Product :=
  [mkProduct "A" (num 10) (num 1) "T1"; mkProduct "A" (num 10) (num 1) "T1"].

(** A product file with a blank second line and a malformed third line, and
    a service file of the same shape. *)
Definition productsText : string :=
  "Widget,10,5,R1" +:+ String "010" (String "010" "Gadget,abc,1,R2").
Definition servicesText : string :=
  "P1,Freight,50,comun" +:+ String "010" (String "010" "P2,Tax,T1").

(** A general service written in upper case, and a product whose tariff rate
    is that very string. *)
Definition upperCaseService : Service :=
  mkService "P1" "Freight" (num 50) "COMUN".
Definition productsUpperCase : list Product :=
  [mkProduct "Widget" (num 10) (num 5) "COMUN"].

(** ** calculateDistributedCosts over IEEE doubles

    The same function with [number] as the binary64 floats of the machine:
    what the code computes to the last bit, with rounding, infinities and
    NaN.  [===], [>] and [>=] on numbers are the IEEE comparisons. *)
Module Float64.
Import PrimFloat.
#[local] Set Warnings "-inexact-float".
Local Open Scope float_scope.

Record Product := mkProduct {
  name : string;
  unitCost : float;
  quantity : float;
  tariffRate : string
}.

Record Service := mkService {
  providerName : string;
  serviceName : string;
  cost : float;
  distributionRule : string
}.

Record ProcessedProduct := mkProcessed {
  product : Product;
  initialCost : float;
  costAfterGeneralServices : float;
  finalCost : float;
  allocatedGeneralCostSum : float;
  allocatedSpecificCostSum : float
}.

(** [xs.reduce((sum, x) => sum + f(x), 0)] *)
Definition sumOf {A} (f : A → float) (xs : list A) : float :=
  fold_left (λ sum x, sum + f x) xs 0.

Definition initProcessed (p : Product) : ProcessedProduct :=
  {| product := p;
     initialCost := unitCost p * quantity p;
     costAfterGeneralServices := unitCost p * quantity p;
     finalCost := unitCost p * quantity p;
     allocatedGeneralCostSum := 0;
     allocatedSpecificCostSum := 0 |}.

Definition comunServices (services : list Service) : list Service :=
  filter (λ s, toLowerCase (distributionRule s) = "comun"%string) services.

Definition totalComunServiceCost (services : list Service) : float :=
  sumOf cost (comunServices services).

Definition totalInitialProductValue (tpp : list ProcessedProduct) : float :=
  sumOf initialCost tpp.

Definition addGeneral (a : float) (p : ProcessedProduct) : ProcessedProduct :=
  {| product := product p;
     initialCost := initialCost p;
     costAfterGeneralServices := costAfterGeneralServices p + a;
     finalCost := finalCost p + a;
     allocatedGeneralCostSum := allocatedGeneralCostSum p + a;
     allocatedSpecificCostSum := allocatedSpecificCostSum p |}.

Definition distributeComun (services : list Service)
    (tpp : list ProcessedProduct) : list ProcessedProduct :=
  let total := totalComunServiceCost services in
  let value := totalInitialProductValue tpp in
  if (0 <? total) && (0 <? value) then
    (λ p, addGeneral (initialCost p / value * total) p) <$> tpp
  else tpp.

Definition specificTariffRules (services : list Service) : list string :=
  arrayFromSet
    (distributionRule
       <$> filter (λ s, toLowerCase (distributionRule s) ≠ "comun"%string)
             services).

Definition servicesForThisRule (services : list Service)
    (specificRule : string) : list Service :=
  filter (λ s, distributionRule s = specificRule) services.

Definition totalCostForThisRule (services : list Service)
    (specificRule : string) : float :=
  sumOf cost (servicesForThisRule services specificRule).

(** References to the objects of the array are indices, as above. *)
Definition matchingProducts (tpp : list ProcessedProduct)
    (specificRule : string) : list nat :=
  indicesFrom (λ p, tariffRate (product p) = specificRule) 0 tpp.

Definition deref (tpp : list ProcessedProduct) (f : ProcessedProduct → float)
    (i : nat) : float :=
  from_option f 0 (tpp !! i).

Definition totalBaseCostForSpecificDistribution
    (tpp : list ProcessedProduct) (matching : list nat) : float :=
  sumOf (deref tpp costAfterGeneralServices) matching.

(** The predicate of the [findIndex] call. *)
Definition sameProduct (mp p : ProcessedProduct) : bool :=
  bool_decide (name (product p) = name (product mp))
  && bool_decide (tariffRate (product p) = tariffRate (product mp))
  && (unitCost (product p) =? unitCost (product mp))
  && (quantity (product p) =? quantity (product mp)).

Definition addSpecific (a : float) (p : ProcessedProduct) : ProcessedProduct :=
  {| product := product p;
     initialCost := initialCost p;
     costAfterGeneralServices := costAfterGeneralServices p;
     finalCost := finalCost p + a;
     allocatedGeneralCostSum := allocatedGeneralCostSum p;
     allocatedSpecificCostSum := allocatedSpecificCostSum p + a |}.

Definition allocateTo (totalBase totalCost : float)
    (tpp : list ProcessedProduct) (mpRef : nat) : list ProcessedProduct :=
  match tpp !! mpRef with
  | None => tpp
  | Some mp =>
      match findIndex (λ p, sameProduct mp p = true) tpp with
      | None => tpp
      | Some productIndex =>
          let allocatedSpecificCost :=
            costAfterGeneralServices mp / totalBase * totalCost in
          alter (addSpecific allocatedSpecificCost) productIndex tpp
      end
  end.

Definition distributeRule (services : list Service)
    (tpp : list ProcessedProduct) (specificRule : string)
    : list ProcessedProduct :=
  let totalCost := totalCostForThisRule services specificRule in
  let matching := matchingProducts tpp specificRule in
  if decide (length matching = 0%nat) then tpp
  else
    let totalBase := totalBaseCostForSpecificDistribution tpp matching in
    if (0 <? totalCost) && (0 <? totalBase) then
      fold_left (allocateTo totalBase totalCost) matching tpp
    else tpp.

Definition distributeSpecific (services : list Service)
    (tpp : list ProcessedProduct) : list ProcessedProduct :=
  fold_left (distributeRule services) (specificTariffRules services) tpp.

Definition calculateDistributedCosts (products : list Product)
    (services : list Service) : list ProcessedProduct :=
  distributeSpecific services
    (distributeComun services (initProcessed <$> products)).


(** [finalCost == initialCost + allocatedGeneralCostSum
    + allocatedSpecificCostSum] and [costAfterGeneralServices == initialCost
    + allocatedGeneralCostSum] and [initialCost == unitCost * quantity] *)
Definition costsConsistent (p : ProcessedProduct) : bool :=
  (finalCost p
   =? initialCost p + allocatedGeneralCostSum p + allocatedSpecificCostSum p)
  && (costAfterGeneralServices p =? initialCost p + allocatedGeneralCostSum p)
  && (initialCost p =? unitCost (product p) * quantity (product p)).

(** [finalCost >= costAfterGeneralServices >= initialCost] *)
Definition costsMonotone (p : ProcessedProduct) : bool :=
  (costAfterGeneralServices p <=? finalCost p)
  && (initialCost p <=? costAfterGeneralServices p).


(** Two equal product lines and one service of their tariff rate. *)
Definition productsTwice : list Product :=
  [mkProduct "A" 19.99 1 "T1"; mkProduct "A" 19.99 1 "T1"].




End Float64.

(** ** Vocabulary of the statements *)


(** The part of a processed product that step 2 never writes to. *)
Definition frame (p : ProcessedProduct) : Product * Qc * Qc * Qc :=
  (product p, initialCost p, costAfterGeneralServices p,
   allocatedGeneralCostSum p).

(** The specific allocation of [p] when its product satisfies [P], and 0
    otherwise: summed over an array, the specific allocation received by the
    products selected by [P]. *)
Definition specificOf (P : Product → Prop) `{∀ x, Decision (P x)}
    (p : ProcessedProduct) : Qc :=
  if decide (P (product p)) then allocatedSpecificCostSum p else 0.

(** [totalBase] of a rule: the costs after general services of the products
    of that tariff rate. *)
Definition totalBaseForRule (tpp : list ProcessedProduct) (r : string) : Qc :=
  sumOf costAfterGeneralServices (filter (hasRate r) tpp).

(** What the object behind reference [i] receives from a rule of total cost
    [totalCost] over the base [totalBase], counted when its product
    satisfies [P]. *)
Definition shareOf (P : Product → Prop) `{∀ x, Decision (P x)}
    (totalBase totalCost : Qc) (tpp : list ProcessedProduct) (i : nat) : Qc :=
  match tpp !! i with
  | Some mp =>
      if decide (P (product mp)) then
        costAfterGeneralServices mp / totalBase * totalCost
      else 0
  | None => 0
  end.

(** The number of occurrences of a character in a string. *)
Fixpoint occurrences (c : ascii) (s : string) : nat :=
  match s with
  | EmptyString => 0
  | String c' t =>
      if decide (c' = c) then S (occurrences c t) else occurrences c t
  end.

(** The identities between the cost fields of a processed product. *)
Definition costsConsistent (p : ProcessedProduct) : Prop :=
  initialCost p = unitCost (product p) * quantity (product p)
  ∧ costAfterGeneralServices p = initialCost p + allocatedGeneralCostSum p
  ∧ finalCost p
    = initialCost p + allocatedGeneralCostSum p + allocatedSpecificCostSum p.

(** [finalCost >= costAfterGeneralServices >= initialCost], over a
    non-negative initial cost. *)
Definition costsMonotone (p : ProcessedProduct) : Prop :=
  0 ≤ initialCost p
  ∧ initialCost p ≤ costAfterGeneralServices p
  ∧ costAfterGeneralServices p ≤ finalCost p.

(** All the costs and quantities of the input are non-negative. *)
Definition nonNegativeInput (products : list Product)
    (services : list Service) : Prop :=
  Forall (λ q, 0 ≤ unitCost q ∧ 0 ≤ quantity q) products
  ∧ Forall (λ s, 0 ≤ cost s) services.

(** A product line worth nothing: consistent fields, and no cost at all
    once its initial cost is zero. *)
Definition nothingForNothing (p : ProcessedProduct) : Prop :=
  costsConsistent p
  ∧ (initialCost p = 0 →
     costAfterGeneralServices p = 0 ∧ finalCost p = 0).

(** * Properties *)

Implicit Types (tpp : list ProcessedProduct) (products : list Product).
Implicit Types (services : list Service) (rules : list string).
Implicit Types (p mp : ProcessedProduct) (r : string) (i j k : nat).
Implicit Types (a totalBase totalCost : Qc) (matching : list nat).

(** ** Sums *)

Section sums.
Context {A : Type}.
Implicit Types (f g : A → Qc) (xs : list A).

Lemma fold_sum_shift f xs (a : Qc) :
  fold_left (λ sum x, sum + f x) xs a = a + sumOf f xs.
Proof.
  unfold sumOf. revert a.
  induction xs as [|x xs IH]; intros a; simpl.
  - ring.
  - rewrite (IH (a + f x)), (IH (0 + f x)). ring.
Qed.

Lemma sumOf_nil f : sumOf f [] = 0.
Proof. reflexivity. Qed.

Lemma sumOf_cons f x xs : sumOf f (x :: xs) = f x + sumOf f xs.
Proof. unfold sumOf at 1. simpl. rewrite fold_sum_shift. ring. Qed.

Lemma sumOf_ext f g xs :
  (∀ x, x ∈ xs → f x = g x) → sumOf f xs = sumOf g xs.
Proof.
  induction xs as [|x xs IH]; intros Hfg; [done|].
  rewrite !sumOf_cons, IH, Hfg; [done|left|].
  intros y Hy. apply Hfg. by right.
Qed.

Lemma sumOf_zero xs : sumOf (λ _ : A, 0) xs = 0.
Proof.
  induction xs as [|x xs IH]; [done|]. rewrite sumOf_cons, IH. ring.
Qed.

(** The shares [f x / d * c] add up to [sumOf f xs / d * c]. *)
Lemma sumOf_shares f (d c : Qc) xs :
  sumOf (λ x, f x / d * c) xs = sumOf f xs / d * c.
Proof.
  induction xs as [|x xs IH].
  - rewrite !sumOf_nil. unfold Qcdiv. ring.
  - rewrite !sumOf_cons, IH. unfold Qcdiv. ring.
Qed.

Lemma sumOf_filter f (P : A → Prop) `{∀ x, Decision (P x)} xs :
  sumOf f (filter P xs) = sumOf (λ x, if decide (P x) then f x else 0) xs.
Proof.
  induction xs as [|x xs IH]; [done|].
  rewrite filter_cons, (sumOf_cons _ x xs).
  destruct (decide (P x)); rewrite ?sumOf_cons, IH; ring.
Qed.

(** Writing to one cell of an array changes a sum by the change of that
    cell. *)
Lemma sumOf_alter f (h : A → A) xs i x :
  xs !! i = Some x →
  sumOf f (alter h i xs) = sumOf f xs + (f (h x) - f x).
Proof.
  revert i. induction xs as [|y xs IH]; intros [|i] Hi; simplify_eq/=.
  - rewrite !sumOf_cons. ring.
  - rewrite !sumOf_cons, (IH i) by done. ring.
Qed.
End sums.

Lemma sumOf_fmap {A B} (f : B → Qc) (h : A → B) (xs : list A) :
  sumOf f (h <$> xs) = sumOf (f ∘ h) xs.
Proof.
  induction xs as [|x xs IH]; [done|].
  rewrite fmap_cons, !sumOf_cons, IH. done.
Qed.

(** ** References into the array *)

Lemma elem_of_indicesFrom {A} (P : A → Prop) `{∀ x, Decision (P x)}
    (xs : list A) (k i : nat) :
  i ∈ indicesFrom P k xs ↔ ∃ x, (k ≤ i)%nat ∧ xs !! (i - k)%nat = Some x ∧ P x.
Proof.
  revert k. induction xs as [|y xs IH]; intros k; simpl.
  - split; [by intros ?%elem_of_nil|]. by intros (x & _ & ? & _).
  - assert (i ∈ indicesFrom P (S k) xs ↔
            ∃ x, (k ≤ i)%nat ∧ (y :: xs) !! (i - k)%nat = Some x ∧ i ≠ k ∧ P x)
      as Htail.
    { rewrite IH. split.
      - intros (x & Hle & Hx & HP). exists x. split_and!; [lia| |lia|done].
        replace (i - k)%nat with (S (i - S k)) by lia. done.
      - intros (x & Hle & Hx & Hne & HP). exists x. split_and!; [lia| |done].
        replace (i - k)%nat with (S (i - S k)) in Hx by lia. done. }
    destruct (decide (P y)) as [Hy|Hy].
    + rewrite elem_of_cons, Htail. split.
      * intros [->|(x & ? & ? & ? & ?)]; [|by eauto].
        exists y. rewrite Nat.sub_diag. done.
      * intros (x & Hle & Hx & HP).
        destruct (decide (i = k)) as [->|]; [by left|right]. by eauto 6.
    + rewrite Htail. split.
      * intros (x & ? & ? & _ & ?). by exists x.
      * intros (x & Hle & Hx & HP). exists x. split_and!; [done..| |done].
        intros ->. rewrite Nat.sub_diag in Hx. by simplify_eq/=.
Qed.

Lemma sumOf_indicesFrom {A} (P : A → Prop) `{∀ x, Decision (P x)}
    (f : A → Qc) (g : nat → Qc) (xs : list A) (k : nat) :
  (∀ j x, xs !! j = Some x → g (k + j)%nat = f x) →
  sumOf g (indicesFrom P k xs) = sumOf f (filter P xs).
Proof.
  revert k. induction xs as [|y xs IH]; intros k Hg; [done|].
  assert (sumOf g (indicesFrom P (S k) xs) = sumOf f (filter P xs)) as Htail.
  { apply IH. intros j x Hx. rewrite <-(Hg (S j) x Hx). f_equal. lia. }
  simpl. rewrite filter_cons.
  destruct (decide (P y)); [|done].
  rewrite !sumOf_cons, Htail, <-(Hg 0%nat y eq_refl). do 2 f_equal. lia.
Qed.

Lemma matchingProducts_elem tpp r i :
  i ∈ matchingProducts tpp r ↔ ∃ mp, tpp !! i = Some mp ∧ hasRate r mp.
Proof.
  unfold matchingProducts. rewrite elem_of_indicesFrom, Nat.sub_0_r.
  split.
  - intros (mp & _ & ? & ?). by exists mp.
  - intros (mp & ? & ?). exists mp. split_and!; [lia|done..].
Qed.

Lemma matchingProducts_empty tpp r :
  (∀ p, p ∈ tpp → ¬ hasRate r p) → matchingProducts tpp r = [].
Proof.
  intros Hno. destruct (matchingProducts tpp r) as [|i l] eqn:E; [done|].
  assert (i ∈ matchingProducts tpp r) as Hi by (rewrite E; left).
  apply matchingProducts_elem in Hi as (mp & Hmp & Hr).
  destruct (Hno mp); [|done]. by eapply list_elem_of_lookup_2.
Qed.

Lemma totalBase_filter tpp r :
  totalBaseCostForSpecificDistribution tpp (matchingProducts tpp r)
  = totalBaseForRule tpp r.
Proof.
  apply sumOf_indicesFrom. intros j x Hx. unfold deref. simpl. by rewrite Hx.
Qed.

(** ** Step 2 leaves the frame of every product alone *)

Lemma sameProduct_iff mp p : sameProduct mp p ↔ product p = product mp.
Proof.
  unfold sameProduct. destruct (product p), (product mp); simpl.
  split; [by intros (-> & -> & -> & ->)|]. by intros [= -> -> -> ->].
Qed.

(** What one turn of the inner loop does: the first object with the fields
    of [mp] receives the share of [mp]. *)
Lemma allocateTo_alter totalBase totalCost tpp i mp :
  tpp !! i = Some mp →
  ∃ j p, tpp !! j = Some p ∧ product p = product mp ∧ (j ≤ i)%nat
    ∧ (∀ k q, tpp !! k = Some q → (k < j)%nat → product q ≠ product mp)
    ∧ allocateTo totalBase totalCost tpp i
      = alter
          (addSpecific (costAfterGeneralServices mp / totalBase * totalCost))
          j tpp.
Proof.
  intros Hi. unfold allocateTo, findIndex. rewrite Hi.
  destruct (list_find (sameProduct mp) tpp) as [[j p]|] eqn:Hfind; simpl.
  - apply list_find_Some in Hfind as (Hj & Hp & Hfirst).
    exists j, p. split_and!; [done|by apply sameProduct_iff| |
      by intros k q Hk Hlt ?%sameProduct_iff; eapply Hfirst|done].
    destruct (decide (j ≤ i)%nat) as [|Hgt]; [done|].
    destruct (Hfirst i mp Hi); [lia|]. by apply sameProduct_iff.
  - apply list_find_None in Hfind.
    rewrite Forall_forall in Hfind.
    destruct (Hfind mp); [by eapply list_elem_of_lookup_2|].
    by apply sameProduct_iff.
Qed.

Lemma frame_alter_addSpecific a j tpp :
  frame <$> alter (addSpecific a) j tpp = frame <$> tpp.
Proof.
  apply list_eq. intros k. rewrite !list_lookup_fmap.
  destruct (decide (j = k)) as [->|].
  - rewrite list_lookup_alter_eq. by destruct (tpp !! k).
  - by rewrite list_lookup_alter_ne.
Qed.

Lemma frame_allocateTo totalBase totalCost tpp i :
  frame <$> allocateTo totalBase totalCost tpp i = frame <$> tpp.
Proof.
  destruct (tpp !! i) as [mp|] eqn:Hi.
  - destruct (allocateTo_alter totalBase totalCost tpp i mp Hi)
      as (j & p & _ & _ & _ & _ & ->).
    apply frame_alter_addSpecific.
  - unfold allocateTo. by rewrite Hi.
Qed.

Lemma frame_forEach totalBase totalCost matching tpp :
  frame <$> fold_left (allocateTo totalBase totalCost) matching tpp
  = frame <$> tpp.
Proof.
  revert tpp. induction matching as [|i l IH]; intros tpp; [done|].
  simpl. by rewrite IH, frame_allocateTo.
Qed.

Lemma frame_distributeRule services tpp r :
  frame <$> distributeRule services tpp r = frame <$> tpp.
Proof.
  unfold distributeRule. repeat case_decide; auto using frame_forEach.
Qed.

Lemma frame_fold_distributeRule services rules tpp :
  frame <$> fold_left (distributeRule services) rules tpp = frame <$> tpp.
Proof.
  revert tpp. induction rules as [|r l IH]; intros tpp; [done|].
  simpl. by rewrite IH, frame_distributeRule.
Qed.

Lemma frame_distributeSpecific services tpp :
  frame <$> distributeSpecific services tpp = frame <$> tpp.
Proof. apply frame_fold_distributeRule. Qed.

(** ** What one rule distributes *)

Section shares.
Context (P : Product → Prop) `{∀ x, Decision (P x)}.

Lemma specificOf_addSpecific a p :
  specificOf P (addSpecific a p)
  = specificOf P p + (if decide (P (product p)) then a else 0).
Proof. unfold specificOf. simpl. case_decide; ring. Qed.

Lemma shareOf_frame totalBase totalCost tpp tpp' i :
  frame <$> tpp = frame <$> tpp' →
  shareOf P totalBase totalCost tpp i = shareOf P totalBase totalCost tpp' i.
Proof.
  intros Hfr. apply (f_equal (.!! i)) in Hfr.
  rewrite !list_lookup_fmap in Hfr. unfold shareOf.
  destruct (tpp !! i) as [p|], (tpp' !! i) as [p'|]; try done.
  injection Hfr as Hproduct _ Hcost _. by rewrite Hproduct, Hcost.
Qed.

Lemma allocateTo_specificOf totalBase totalCost tpp i :
  sumOf (specificOf P) (allocateTo totalBase totalCost tpp i)
  = sumOf (specificOf P) tpp + shareOf P totalBase totalCost tpp i.
Proof.
  destruct (tpp !! i) as [mp|] eqn:Hi.
  - destruct (allocateTo_alter totalBase totalCost tpp i mp Hi)
      as (j & p & Hj & Hp & _ & _ & ->).
    rewrite (sumOf_alter _ _ _ _ _ Hj), specificOf_addSpecific.
    unfold shareOf. rewrite Hi, Hp. ring.
  - unfold allocateTo, shareOf. rewrite Hi. ring.
Qed.

Lemma forEach_specificOf totalBase totalCost matching tpp :
  sumOf (specificOf P) (fold_left (allocateTo totalBase totalCost) matching tpp)
  = sumOf (specificOf P) tpp
    + sumOf (shareOf P totalBase totalCost tpp) matching.
Proof.
  revert tpp. induction matching as [|i l IH]; intros tpp; simpl.
  - rewrite sumOf_nil. ring.
  - rewrite IH, allocateTo_specificOf, sumOf_cons.
    rewrite (sumOf_ext _ (shareOf P totalBase totalCost tpp) l); [ring|].
    intros k _. apply shareOf_frame, frame_allocateTo.
Qed.

Lemma shares_matching totalBase totalCost tpp r :
  sumOf (shareOf P totalBase totalCost tpp) (matchingProducts tpp r)
  = sumOf (λ p, if decide (P (product p))
                then costAfterGeneralServices p / totalBase * totalCost
                else 0)
      (filter (hasRate r) tpp).
Proof.
  apply sumOf_indicesFrom. intros j x Hx. unfold shareOf. simpl. by rewrite Hx.
Qed.

Lemma distributeRule_specificOf services tpp r :
  sumOf (specificOf P) (distributeRule services tpp r)
  = sumOf (specificOf P) tpp
    + (if decide (0 < totalCostForThisRule services r
                  ∧ 0 < totalBaseForRule tpp r)
       then sumOf (λ p, if decide (P (product p))
                        then costAfterGeneralServices p / totalBaseForRule tpp r
                             * totalCostForThisRule services r
                        else 0)
              (filter (hasRate r) tpp)
       else 0).
Proof.
  unfold distributeRule. rewrite totalBase_filter.
  destruct (decide (length (matchingProducts tpp r) = 0%nat)) as [Hlen|Hlen].
  - case_decide as Hpos; [|ring]. exfalso.
    destruct Hpos as [_ Hpos]. rewrite <-totalBase_filter in Hpos.
    apply nil_length_inv in Hlen. rewrite Hlen in Hpos.
    by apply Qclt_not_eq in Hpos.
  - case_decide; [|ring].
    by rewrite forEach_specificOf, shares_matching.
Qed.
End shares.

Lemma Qc_share_total (b c : Qc) : 0 < b → b / b * c = c.
Proof. intros Hb. field. by apply Qclt_not_eq, not_eq_sym in Hb. Qed.

Lemma specificOf_rate tpp r :
  sumOf (specificOf (λ q, tariffRate q = r)) tpp
  = sumOf allocatedSpecificCostSum (filter (hasRate r) tpp).
Proof.
  rewrite sumOf_filter. apply sumOf_ext. intros p _.
  unfold specificOf, hasRate. by repeat case_decide.
Qed.

Lemma specificOf_all tpp :
  sumOf (specificOf (λ _, True)) tpp = sumOf allocatedSpecificCostSum tpp.
Proof. apply sumOf_ext. intros p _. unfold specificOf. by case_decide. Qed.

(** A rule gives its whole cost to the products of its tariff rate, and
    nothing to the others. *)
Lemma distributeRule_rate services tpp r r' :
  sumOf allocatedSpecificCostSum
    (filter (hasRate r') (distributeRule services tpp r))
  = sumOf allocatedSpecificCostSum (filter (hasRate r') tpp)
    + (if decide (r' = r ∧ 0 < totalCostForThisRule services r
                  ∧ 0 < totalBaseForRule tpp r)
       then totalCostForThisRule services r else 0).
Proof.
  rewrite <-!specificOf_rate, distributeRule_specificOf. f_equal.
  destruct (decide (0 < totalCostForThisRule services r
                    ∧ 0 < totalBaseForRule tpp r)) as [[Hc Hb]|Hno].
  - destruct (decide (r' = r)) as [->|Hne].
    + rewrite decide_True by done.
      rewrite (sumOf_ext _ (λ p, costAfterGeneralServices p
                 / totalBaseForRule tpp r * totalCostForThisRule services r)).
      * rewrite sumOf_shares. by apply Qc_share_total.
      * intros p [Hp _]%list_elem_of_filter. by rewrite decide_True.
    + rewrite decide_False by tauto.
      rewrite (sumOf_ext _ (λ _, 0)); [apply sumOf_zero|].
      intros p [Hp _]%list_elem_of_filter. unfold hasRate in Hp.
      rewrite decide_False; [done|congruence].
  - rewrite decide_False; [done|]. tauto.
Qed.

Lemma distributeRule_total services tpp r :
  sumOf allocatedSpecificCostSum (distributeRule services tpp r)
  = sumOf allocatedSpecificCostSum tpp
    + (if decide (0 < totalCostForThisRule services r
                  ∧ 0 < totalBaseForRule tpp r)
       then totalCostForThisRule services r else 0).
Proof.
  rewrite <-!specificOf_all, distributeRule_specificOf. f_equal.
  case_decide as Hpos; [|done]. destruct Hpos as [Hc Hb].
  rewrite (sumOf_ext _ (λ p, costAfterGeneralServices p
             / totalBaseForRule tpp r * totalCostForThisRule services r)).
  - rewrite sumOf_shares. by apply Qc_share_total.
  - intros p _. by rewrite decide_True.
Qed.

(** ** The set of specific rules *)

Lemma elem_of_fold_setAdd (xs acc : list string) (x : string) :
  x ∈ fold_left setAdd xs acc ↔ x ∈ acc ∨ x ∈ xs.
Proof.
  revert acc. induction xs as [|y xs IH]; intros acc; simpl.
  - rewrite elem_of_nil. tauto.
  - rewrite IH, elem_of_cons. unfold setAdd.
    destruct (decide (y ∈ acc)) as [Hy|Hy].
    + split; [tauto|]. intros [?|[->|?]]; tauto.
    + rewrite elem_of_app, list_elem_of_singleton. tauto.
Qed.

Lemma NoDup_fold_setAdd (xs acc : list string) :
  NoDup acc → NoDup (fold_left setAdd xs acc).
Proof.
  revert acc. induction xs as [|y xs IH]; intros acc Hacc; [done|].
  simpl. apply IH. unfold setAdd. case_decide as Hy; [done|].
  apply NoDup_app. split_and!; [done| |apply NoDup_singleton].
  intros x Hx ->%list_elem_of_singleton. done.
Qed.

Lemma NoDup_specificTariffRules services :
  NoDup (specificTariffRules services).
Proof. apply NoDup_fold_setAdd, NoDup_nil_2. Qed.

Lemma elem_of_specificTariffRules services r :
  r ∈ specificTariffRules services
  ↔ ∃ s, s ∈ services ∧ ¬ isComun s ∧ distributionRule s = r.
Proof.
  unfold specificTariffRules, arrayFromSet.
  rewrite elem_of_fold_setAdd, elem_of_nil, list_elem_of_fmap.
  split.
  - intros [[]|(s & -> & [? ?]%list_elem_of_filter)]. by exists s.
  - intros (s & ? & ? & <-). right. exists s. split; [done|].
    by apply list_elem_of_filter.
Qed.

(** ** What step 2 distributes *)

Lemma totalBaseForRule_frame tpp tpp' r :
  frame <$> tpp = frame <$> tpp' →
  totalBaseForRule tpp r = totalBaseForRule tpp' r.
Proof.
  intros Hfr. unfold totalBaseForRule. rewrite !sumOf_filter.
  pose (g := λ fr : Product * Qc * Qc * Qc,
          if decide (tariffRate fr.1.1.1 = r) then fr.1.2 else 0).
  rewrite (sumOf_ext _ (g ∘ frame) tpp), (sumOf_ext _ (g ∘ frame) tpp').
  - by rewrite <-!sumOf_fmap, Hfr.
  - intros p _. unfold g, hasRate. simpl. by repeat case_decide.
  - intros p _. unfold g, hasRate. simpl. by repeat case_decide.
Qed.

Lemma fold_distributeRule_rate services rules tpp r :
  NoDup rules →
  sumOf allocatedSpecificCostSum
    (filter (hasRate r) (fold_left (distributeRule services) rules tpp))
  = sumOf allocatedSpecificCostSum (filter (hasRate r) tpp)
    + (if decide (r ∈ rules ∧ 0 < totalCostForThisRule services r
                  ∧ 0 < totalBaseForRule tpp r)
       then totalCostForThisRule services r else 0).
Proof.
  revert tpp. induction rules as [|r0 rules IH]; intros tpp Hnd;
    cbn [fold_left].
  - rewrite decide_False; [ring|]. rewrite elem_of_nil. tauto.
  - apply NoDup_cons in Hnd as [Hr0 Hnd].
    rewrite IH, distributeRule_rate by done.
    rewrite (totalBaseForRule_frame (distributeRule services tpp r0) tpp)
      by apply frame_distributeRule.
    rewrite <-Qcplus_assoc. f_equal.
    destruct (decide (r = r0)) as [->|Hne].
    + rewrite (decide_False (P := r0 ∈ rules ∧ _)) by tauto.
      destruct (decide (0 < totalCostForThisRule services r0
                        ∧ 0 < totalBaseForRule tpp r0)) as [Hpos|Hpos].
      * rewrite !decide_True; [ring|split; [left|done]|done].
      * rewrite !decide_False; [ring|tauto..].
    + rewrite (decide_False (P := r = r0 ∧ _)) by tauto.
      rewrite Qcplus_0_l. apply decide_ext.
      rewrite elem_of_cons. tauto.
Qed.

Lemma specific_initProcessed products :
  Forall (λ p, allocatedSpecificCostSum p = 0) (initProcessed <$> products).
Proof. apply Forall_fmap, Forall_forall. done. Qed.

Lemma specific_distributeComun services tpp :
  Forall (λ p, allocatedSpecificCostSum p = 0) tpp →
  Forall (λ p, allocatedSpecificCostSum p = 0) (distributeComun services tpp).
Proof.
  intros Hz. unfold distributeComun. case_decide; [|done].
  apply Forall_fmap. eapply Forall_impl; [exact Hz|]. done.
Qed.

Lemma sumOf_all_zero {A} (f : A → Qc) (xs : list A) :
  Forall (λ x, f x = 0) xs → sumOf f xs = 0.
Proof.
  rewrite Forall_forall. intros Hz.
  rewrite (sumOf_ext _ (λ _, 0)); [apply sumOf_zero|done].
Qed.

Lemma specific_before_step2 products services :
  Forall (λ p, allocatedSpecificCostSum p = 0)
    (distributeComun services (initProcessed <$> products)).
Proof. apply specific_distributeComun, specific_initProcessed. Qed.

(** C4. Every specific rule of positive total cost whose matching products
    have a positive total cost after general services is distributed in
    full: in the output, the specific allocations of the products of that
    tariff rate (which receive from no other rule) add up to the total cost
    of the rule; when it is the only specific rule, so do the specific
    allocations of all the products. *)
Theorem specific_rule_conservation products services r :
  r ∈ specificTariffRules services →
  0 < totalCostForThisRule services r →
  0 < totalBaseForRule (calculateDistributedCosts products services) r →
  sumOf allocatedSpecificCostSum
    (filter (hasRate r) (calculateDistributedCosts products services))
  = totalCostForThisRule services r
  ∧ (specificTariffRules services = [r] →
     sumOf allocatedSpecificCostSum (calculateDistributedCosts products services)
     = totalCostForThisRule services r).
Proof.
  intros Hr Hcost Hbase. unfold calculateDistributedCosts in *.
  set (tpp := distributeComun services (initProcessed <$> products)) in *.
  rewrite (totalBaseForRule_frame _ tpp) in Hbase
    by apply frame_distributeSpecific.
  split.
  - unfold distributeSpecific.
    rewrite fold_distributeRule_rate by apply NoDup_specificTariffRules.
    rewrite decide_True by done.
    rewrite (sumOf_all_zero _ (filter _ tpp)); [ring|].
    apply Forall_forall. intros p [_ Hp]%list_elem_of_filter.
    revert p Hp. apply Forall_forall, specific_before_step2.
  - intros Honly. unfold distributeSpecific. rewrite Honly. simpl.
    rewrite distributeRule_total, decide_True by done.
    rewrite (sumOf_all_zero _ tpp); [ring|]. apply specific_before_step2.
Qed.

(** ** Invariants of the products *)

Lemma Qc_share_nonneg (x b c : Qc) : 0 ≤ x → 0 < b → 0 < c → 0 ≤ x / b * c.
Proof.
  intros Hx Hb Hc. unfold Qcdiv.
  apply Qcmult_nonneg_nonneg; [apply Qcmult_nonneg_nonneg|]; [done| |].
  - by apply Qclt_le_weak, Qcinv_pos.
  - by apply Qclt_le_weak.
Qed.

Section step2_invariant.
Context (Q : ProcessedProduct → Prop).
Context (Q_addSpecific : ∀ totalBase totalCost mp p,
  0 < totalCost → 0 < totalBase → Q mp → Q p →
  Q (addSpecific (costAfterGeneralServices mp / totalBase * totalCost) p)).

Lemma allocateTo_Forall totalBase totalCost tpp i :
  0 < totalCost → 0 < totalBase →
  Forall Q tpp → Forall Q (allocateTo totalBase totalCost tpp i).
Proof.
  intros Hc Hb HQ. destruct (tpp !! i) as [mp|] eqn:Hi.
  - destruct (allocateTo_alter totalBase totalCost tpp i mp Hi)
      as (j & p & _ & _ & _ & _ & ->).
    apply Forall_alter; [done|]. intros q _ Hq.
    apply Q_addSpecific; [done..| |done].
    rewrite Forall_lookup in HQ. by eapply HQ.
  - unfold allocateTo. by rewrite Hi.
Qed.

Lemma forEach_Forall totalBase totalCost matching tpp :
  0 < totalCost → 0 < totalBase →
  Forall Q tpp →
  Forall Q (fold_left (allocateTo totalBase totalCost) matching tpp).
Proof.
  intros Hc Hb. revert tpp.
  induction matching as [|i l IH]; intros tpp HQ; [done|].
  simpl. by apply IH, allocateTo_Forall.
Qed.

Lemma distributeRule_Forall services tpp r :
  Forall Q tpp → Forall Q (distributeRule services tpp r).
Proof.
  intros HQ. unfold distributeRule. case_decide; [done|].
  case_decide as Hpos; [|done]. destruct Hpos. by apply forEach_Forall.
Qed.

Lemma distributeSpecific_Forall services tpp :
  Forall Q tpp → Forall Q (distributeSpecific services tpp).
Proof.
  unfold distributeSpecific. generalize (specificTariffRules services).
  intros rules. revert tpp.
  induction rules as [|r l IH]; intros tpp HQ; [done|].
  simpl. by apply IH, distributeRule_Forall.
Qed.
End step2_invariant.

Lemma costsConsistent_initProcessed (q : Product) :
  costsConsistent (initProcessed q).
Proof. unfold costsConsistent. simpl. split_and!; ring. Qed.

Lemma costsConsistent_addGeneral a p :
  costsConsistent p → costsConsistent (addGeneral a p).
Proof.
  unfold costsConsistent. simpl. intros (Hi & Hc & Hf).
  split_and!; [done|rewrite Hc; ring|rewrite Hf; ring].
Qed.

Lemma costsConsistent_addSpecific a p :
  costsConsistent p → costsConsistent (addSpecific a p).
Proof.
  unfold costsConsistent. simpl. intros (Hi & Hc & Hf).
  split_and!; [done..|rewrite Hf; ring].
Qed.

Lemma costsConsistent_output products services :
  Forall costsConsistent (calculateDistributedCosts products services).
Proof.
  unfold calculateDistributedCosts. apply distributeSpecific_Forall.
  { intros. by apply costsConsistent_addSpecific. }
  unfold distributeComun. case_decide.
  - rewrite <-list_fmap_compose. apply Forall_fmap, Forall_forall.
    intros q _. apply costsConsistent_addGeneral, costsConsistent_initProcessed.
  - apply Forall_fmap, Forall_forall. intros q _.
    apply costsConsistent_initProcessed.
Qed.


Lemma costsMonotone_addSpecific totalBase totalCost mp p :
  0 < totalCost → 0 < totalBase → costsMonotone mp → costsMonotone p →
  costsMonotone
    (addSpecific (costAfterGeneralServices mp / totalBase * totalCost) p).
Proof.
  unfold costsMonotone. simpl. intros Hc Hb (Hmp0 & Hmp1 & _) (H0 & H1 & H2).
  split_and!; [done..|].
  etrans; [exact H2|].
  rewrite <-(Qcplus_0_r (finalCost p)) at 1.
  apply Qcplus_le_mono_l, Qc_share_nonneg; [|done..].
  by trans (initialCost mp).
Qed.

Lemma costsMonotone_initProcessed (q : Product) :
  0 ≤ unitCost q → 0 ≤ quantity q → costsMonotone (initProcessed q).
Proof.
  intros Hu Hq. unfold costsMonotone. simpl.
  split_and!; [by apply Qcmult_nonneg_nonneg|done..].
Qed.

Lemma costsMonotone_addGeneral a p :
  0 ≤ a → costsMonotone p → costsMonotone (addGeneral a p).
Proof.
  unfold costsMonotone. simpl. intros Ha (H0 & H1 & H2).
  split_and!; [done| |by apply Qcplus_le_mono_r].
  etrans; [exact H1|].
  rewrite <-(Qcplus_0_r (costAfterGeneralServices p)) at 1.
  by apply Qcplus_le_mono_l.
Qed.


(** ** Step 1 and what step 2 keeps of it *)

Lemma frame_Forall (R : Product * Qc * Qc * Qc → Prop) tpp tpp' :
  frame <$> tpp = frame <$> tpp' →
  Forall (R ∘ frame) tpp → Forall (R ∘ frame) tpp'.
Proof. intros Hfr. by rewrite <-!Forall_fmap, Hfr. Qed.

Lemma frame_sumOf (g : Product * Qc * Qc * Qc → Qc) tpp tpp' :
  frame <$> tpp = frame <$> tpp' →
  sumOf (g ∘ frame) tpp = sumOf (g ∘ frame) tpp'.
Proof. intros Hfr. by rewrite <-!sumOf_fmap, Hfr. Qed.

Lemma totalInitialProductValue_init products :
  totalInitialProductValue (initProcessed <$> products)
  = sumOf (λ q, unitCost q * quantity q) products.
Proof. unfold totalInitialProductValue. by rewrite sumOf_fmap. Qed.

Lemma distributeComun_shares services products :
  0 < totalComunServiceCost services →
  0 < totalInitialProductValue (initProcessed <$> products) →
  distributeComun services (initProcessed <$> products)
  = (λ p, addGeneral
            (initialCost p / totalInitialProductValue (initProcessed <$> products)
             * totalComunServiceCost services) p)
    <$> (initProcessed <$> products).
Proof. intros Hc Hv. unfold distributeComun. by rewrite decide_True. Qed.

Lemma distributeComun_none services tpp :
  totalComunServiceCost services = 0 → distributeComun services tpp = tpp.
Proof.
  intros Hz. unfold distributeComun. rewrite Hz.
  rewrite decide_False; [done|]. intros [Hlt _]. by apply Qclt_not_eq in Hlt.
Qed.

(** C1. When the total of the general ("comun") services and the total
    initial value of the products are both positive, every product of the
    output has [allocatedGeneralCostSum
    = initialCost / totalInitialValue * totalGeneralCost], and these
    allocations add up to the total of the general services. *)
Theorem general_cost_conservation products services :
  0 < totalComunServiceCost services →
  0 < totalInitialProductValue (initProcessed <$> products) →
  Forall (λ p,
      allocatedGeneralCostSum p
      = initialCost p / totalInitialProductValue (initProcessed <$> products)
        * totalComunServiceCost services)
    (calculateDistributedCosts products services)
  ∧ sumOf allocatedGeneralCostSum (calculateDistributedCosts products services)
    = totalComunServiceCost services.
Proof.
  intros Hc Hv. unfold calculateDistributedCosts.
  rewrite distributeComun_shares by done.
  set (value := totalInitialProductValue (initProcessed <$> products)) in *.
  set (total := totalComunServiceCost services) in *.
  set (tpp := (λ p, addGeneral (initialCost p / value * total) p)
              <$> (initProcessed <$> products)).
  assert (frame <$> distributeSpecific services tpp = frame <$> tpp) as Hfr
    by apply frame_distributeSpecific.
  split.
  - apply (frame_Forall (λ fr, fr.2 = fr.1.1.2 / value * total) tpp);
      [done|].
    unfold tpp. rewrite <-list_fmap_compose.
    apply Forall_fmap, Forall_forall. intros q _. simpl. ring.
  - rewrite (frame_sumOf snd _ tpp) by done.
    unfold tpp. rewrite <-list_fmap_compose, sumOf_fmap.
    rewrite (sumOf_ext _ (λ q, unitCost q * quantity q / value * total)).
    + rewrite sumOf_shares, <-totalInitialProductValue_init.
      by apply Qc_share_total.
    + intros q _. simpl. ring.
Qed.


Lemma product_of_frame tpp :
  product <$> tpp = (λ fr, fr.1.1.1) <$> (frame <$> tpp).
Proof. by rewrite <-list_fmap_compose. Qed.

Lemma product_distributeComun services tpp :
  product <$> distributeComun services tpp = product <$> tpp.
Proof.
  unfold distributeComun. case_decide; [|done].
  by rewrite <-list_fmap_compose.
Qed.

Lemma product_output products services :
  product <$> calculateDistributedCosts products services = products.
Proof.
  unfold calculateDistributedCosts.
  rewrite product_of_frame, frame_distributeSpecific, <-product_of_frame.
  rewrite product_distributeComun, <-list_fmap_compose.
  apply list_fmap_id.
Qed.

(** C9. The output has one product per input product, in the same order,
    and the i-th output product carries the name, unit cost, quantity and
    tariff rate of the i-th input product.  (The inputs are values of the
    model, as the source never writes to its two arguments.) *)
Theorem input_fields_preserved products services :
  length (calculateDistributedCosts products services) = length products
  ∧ ∀ i q, products !! i = Some q →
      ∃ p, calculateDistributedCosts products services !! i = Some p
        ∧ name (product p) = name q
        ∧ unitCost (product p) = unitCost q
        ∧ quantity (product p) = quantity q
        ∧ tariffRate (product p) = tariffRate q.
Proof.
  pose proof (product_output products services) as Hout. split.
  - by rewrite <-(length_fmap product), Hout.
  - intros i q Hq. rewrite <-Hout, list_lookup_fmap in Hq.
    destruct (calculateDistributedCosts products services !! i) as [p|];
      [|done].
    exists p. by simplify_eq/=.
Qed.

(** ** Services that step 2 does not look at *)

Lemma fold_left_ext_in {A B} (f g : A → B → A) (xs : list B) (a : A) :
  (∀ b x, x ∈ xs → f b x = g b x) → fold_left f xs a = fold_left g xs a.
Proof.
  revert a. induction xs as [|x xs IH]; intros a Hfg; [done|].
  simpl. rewrite (Hfg a x) by left. apply IH.
  intros b y Hy. apply Hfg. by right.
Qed.

Lemma filter_fold_setAdd (r : string) (xs acc : list string) :
  filter (λ x, x ≠ r) (fold_left setAdd xs acc)
  = fold_left setAdd (filter (λ x, x ≠ r) xs) (filter (λ x, x ≠ r) acc).
Proof.
  revert acc. induction xs as [|y xs IH]; intros acc; [done|].
  cbn [fold_left]. rewrite IH, filter_cons.
  destruct (decide (y ≠ r)) as [Hy|Hy]; cbn [fold_left].
  - assert (filter (λ x, x ≠ r) (setAdd acc y)
            = setAdd (filter (λ x, x ≠ r) acc) y) as ->; [|done].
    unfold setAdd. destruct (decide (y ∈ acc)) as [Hin|Hin].
    + rewrite decide_True; [done|]. by apply list_elem_of_filter.
    + rewrite decide_False.
      * by rewrite filter_app, filter_cons_True, filter_nil.
      * rewrite list_elem_of_filter. tauto.
  - assert (filter (λ x, x ≠ r) (setAdd acc y) = filter (λ x, x ≠ r) acc)
      as ->; [|done].
    unfold setAdd. case_decide; [done|].
    by rewrite filter_app, filter_cons_False, filter_nil, app_nil_r.
Qed.

Lemma rules_without_service services1 s services2 :
  filter (λ x, x ≠ distributionRule s)
    (specificTariffRules (services1 ++ s :: services2))
  = filter (λ x, x ≠ distributionRule s)
      (specificTariffRules (services1 ++ services2)).
Proof.
  unfold specificTariffRules, arrayFromSet. rewrite !filter_fold_setAdd.
  f_equal. rewrite !filter_app, !fmap_app, !filter_app. f_equal.
  rewrite filter_cons. case_decide; [|done].
  rewrite fmap_cons, filter_cons_False; [done|]. tauto.
Qed.

Lemma totalCost_without_service services1 s services2 r :
  distributionRule s ≠ r →
  totalCostForThisRule (services1 ++ s :: services2) r
  = totalCostForThisRule (services1 ++ services2) r.
Proof.
  intros Hne. unfold totalCostForThisRule, servicesForThisRule.
  by rewrite !filter_app, filter_cons_False.
Qed.

Lemma distributeRule_without_service services1 s services2 tpp r :
  distributionRule s ≠ r →
  distributeRule (services1 ++ s :: services2) tpp r
  = distributeRule (services1 ++ services2) tpp r.
Proof.
  intros Hne. unfold distributeRule.
  by rewrite totalCost_without_service.
Qed.

Lemma comunServices_without_service services1 s services2 :
  ¬ isComun s →
  comunServices (services1 ++ s :: services2)
  = comunServices (services1 ++ services2).
Proof.
  intros Hs. unfold comunServices. by rewrite !filter_app, filter_cons_False.
Qed.

(** A rule that is the tariff rate of no product changes nothing. *)
Lemma distributeRule_orphan services tpp r :
  Forall (λ q, tariffRate q ≠ r) (product <$> tpp) →
  distributeRule services tpp r = tpp.
Proof.
  intros Hno. unfold distributeRule.
  rewrite matchingProducts_empty; [done|].
  rewrite Forall_fmap, Forall_forall in Hno. exact Hno.
Qed.

Lemma product_distributeRule services tpp r :
  product <$> distributeRule services tpp r = product <$> tpp.
Proof. by rewrite !product_of_frame, frame_distributeRule. Qed.

Lemma fold_skip_orphan services rules tpp r :
  Forall (λ q, tariffRate q ≠ r) (product <$> tpp) →
  fold_left (distributeRule services) rules tpp
  = fold_left (distributeRule services) (filter (λ x, x ≠ r) rules) tpp.
Proof.
  revert tpp. induction rules as [|r0 rules IH]; intros tpp Hno; [done|].
  rewrite filter_cons. simpl. destruct (decide (r0 ≠ r)) as [Hne|Heq].
  - simpl. apply IH. by rewrite product_distributeRule.
  - apply dec_stable in Heq as ->.
    rewrite distributeRule_orphan by done. by apply IH.
Qed.

(** C7. A service whose distribution rule is not the general marker and is
    the tariff rate of no product does not stop the allocation and does not
    change its result: the output is the output for the services without
    it. *)
Theorem orphan_service_ignored products services1 s services2 :
  ¬ isComun s →
  (∀ q, q ∈ products → tariffRate q ≠ distributionRule s) →
  calculateDistributedCosts products (services1 ++ s :: services2)
  = calculateDistributedCosts products (services1 ++ services2).
Proof.
  intros Hs Horphan. unfold calculateDistributedCosts.
  assert (distributeComun (services1 ++ s :: services2)
            (initProcessed <$> products)
          = distributeComun (services1 ++ services2)
              (initProcessed <$> products)) as ->.
  { unfold distributeComun, totalComunServiceCost.
    by rewrite comunServices_without_service. }
  set (tpp := distributeComun (services1 ++ services2)
                (initProcessed <$> products)).
  assert (Forall (λ q, tariffRate q ≠ distributionRule s) (product <$> tpp))
    as Hno.
  { unfold tpp. rewrite product_distributeComun, <-list_fmap_compose.
    rewrite list_fmap_id. by apply Forall_forall. }
  unfold distributeSpecific.
  rewrite (fold_skip_orphan _ _ _ _ Hno), rules_without_service.
  rewrite (fold_skip_orphan (services1 ++ services2) _ _ _ Hno).
  apply fold_left_ext_in.
  intros b r [Hr _]%list_elem_of_filter.
  apply distributeRule_without_service. congruence.
Qed.

(** C10. Each service is counted in exactly one pool.  It is one of the
    general services exactly when its distribution rule in lower case is
    "comun"; it is one of the services of a specific rule exactly when it is
    not general and that rule is its distribution rule, which then occurs
    once among the specific rules.  The totals follow the lists.  The cost
    of a general service is added to the running total of the general pool
    at its turn, and the total of every specific rule is what it is without
    the service; so a general service written in another case ("COMUN")
    belongs to no specific rule, and step 2 run on any array of products is
    the same with and without it, whatever the tariff rates of the products
    are.  The cost of a service that is not general is added to the running
    total of its own rule at its turn, and the total of the general pool and
    of every other rule is what it is without the service. *)
Theorem service_in_one_pool services1 s services2 :
  (s ∈ comunServices (services1 ++ s :: services2) ↔ isComun s)
  ∧ (∀ r, r ∈ specificTariffRules (services1 ++ s :: services2) →
       s ∈ servicesForThisRule (services1 ++ s :: services2) r
       ↔ ¬ isComun s ∧ r = distributionRule s)
  ∧ (¬ isComun s →
       distributionRule s ∈ specificTariffRules (services1 ++ s :: services2))
  ∧ NoDup (specificTariffRules (services1 ++ s :: services2))
  ∧ (isComun s →
       totalComunServiceCost (services1 ++ s :: services2)
       = fold_left (λ sum x, sum + cost x) (comunServices services2)
           (totalComunServiceCost services1 + cost s)
       ∧ (∀ r, r ∈ specificTariffRules (services1 ++ s :: services2) →
            totalCostForThisRule (services1 ++ s :: services2) r
            = totalCostForThisRule (services1 ++ services2) r)
       ∧ ∀ tpp,
           distributeSpecific (services1 ++ s :: services2) tpp
           = distributeSpecific (services1 ++ services2) tpp)
  ∧ (¬ isComun s →
       totalComunServiceCost (services1 ++ s :: services2)
       = totalComunServiceCost (services1 ++ services2)
       ∧ totalCostForThisRule (services1 ++ s :: services2)
           (distributionRule s)
         = fold_left (λ sum x, sum + cost x)
             (servicesForThisRule services2 (distributionRule s))
             (totalCostForThisRule services1 (distributionRule s) + cost s)
       ∧ ∀ r, r ≠ distributionRule s →
           totalCostForThisRule (services1 ++ s :: services2) r
           = totalCostForThisRule (services1 ++ services2) r).
Proof.
  assert (s ∈ services1 ++ s :: services2) as Hin.
  { apply elem_of_app. right. left. }
  assert (∀ r, r ∈ specificTariffRules (services1 ++ s :: services2) →
               isComun s → distributionRule s ≠ r) as Hrule.
  { intros r (s' & _ & Hs' & <-)%elem_of_specificTariffRules Hs Heq.
    apply Hs'. unfold isComun in *. by rewrite <-Heq. }
  split_and!.
  - unfold comunServices. rewrite list_elem_of_filter. tauto.
  - intros r Hr. unfold servicesForThisRule. rewrite list_elem_of_filter.
    split.
    + intros [Heq _]. split; [|done]. intros Hs. by apply (Hrule r).
    + intros [_ ->]. done.
  - intros Hs. apply elem_of_specificTariffRules. by exists s.
  - apply NoDup_specificTariffRules.
  - intros Hs. split_and!.
    + unfold totalComunServiceCost, sumOf, comunServices.
      by rewrite filter_app, filter_cons_True, fold_left_app.
    + intros r Hr. apply totalCost_without_service. by apply Hrule.
    + intros tpp. unfold distributeSpecific.
      assert (specificTariffRules (services1 ++ s :: services2)
              = specificTariffRules (services1 ++ services2)) as Hrules.
      { unfold specificTariffRules.
        rewrite !filter_app, filter_cons_False; [done|]. tauto. }
      rewrite <-Hrules. apply fold_left_ext_in. intros b r Hr.
      apply distributeRule_without_service. by apply Hrule.
  - intros Hs. split_and!.
    + unfold totalComunServiceCost.
      by rewrite comunServices_without_service.
    + unfold totalCostForThisRule, sumOf, servicesForThisRule.
      by rewrite filter_app, filter_cons_True, fold_left_app.
    + intros r Hr. by apply totalCost_without_service.
Qed.

(** ** The scenarios, evaluated *)

(** Scenario A: the product of initial cost 50 receives the whole general
    cost of 50. *)
Example scenarioA_costs :
  (λ p, (initialCost p, allocatedGeneralCostSum p, finalCost p))
    <$> calculateDistributedCosts productsA servicesA
  = [(num 50, num 50, num 100)].
Proof. compute_done. Qed.

(** Scenario B: A receives the 30 of rule "T1", B is left at 100. *)
Example scenarioB_costs :
  (λ p, (allocatedGeneralCostSum p, allocatedSpecificCostSum p, finalCost p))
    <$> calculateDistributedCosts productsB servicesB
  = [(num 0, num 30, num 130); (num 0, num 0, num 100)].
Proof. compute_done. Qed.

(** A service marked "COMUN" goes to the general pool even when a product
    has the tariff rate "COMUN": the product receives it in step 1 and
    nothing in step 2. *)
Example upper_case_marker_is_general :
  specificTariffRules [upperCaseService] = []
  ∧ (λ p, (allocatedGeneralCostSum p, allocatedSpecificCostSum p, finalCost p))
      <$> calculateDistributedCosts productsUpperCase [upperCaseService]
    = [(num 50, num 0, num 100)].
Proof. split; compute_done. Qed.

(** ** The scenarios, through the theorems *)

Lemma general_cost_conservation_witness :
  0 < totalComunServiceCost servicesA
  ∧ 0 < totalInitialProductValue (initProcessed <$> productsA)
  ∧ sumOf allocatedGeneralCostSum (calculateDistributedCosts productsA servicesA)
    = totalComunServiceCost servicesA.
Proof.
  split_and!; [compute_done..|].
  apply (general_cost_conservation productsA servicesA); compute_done.
Defined.



Lemma specific_rule_conservation_witness :
  "T1"%string ∈ specificTariffRules servicesB
  ∧ 0 < totalCostForThisRule servicesB "T1"
  ∧ 0 < totalBaseForRule (calculateDistributedCosts productsB servicesB) "T1"
  ∧ sumOf allocatedSpecificCostSum
      (filter (hasRate "T1") (calculateDistributedCosts productsB servicesB))
    = totalCostForThisRule servicesB "T1".
Proof.
  split_and!; [compute_done..|].
  apply (specific_rule_conservation productsB servicesB "T1"); compute_done.
Defined.


Lemma orphan_service_ignored_witness :
  ¬ isComun orphanService
  ∧ (∀ q, q ∈ productsB → tariffRate q ≠ distributionRule orphanService)
  ∧ calculateDistributedCosts productsB (servicesB ++ orphanService :: [])
    = calculateDistributedCosts productsB (servicesB ++ []).
Proof.
  assert (∀ q, q ∈ productsB → tariffRate q ≠ distributionRule orphanService)
    as Hnone.
  { apply Forall_forall. repeat constructor; compute_done. }
  split_and!; [compute_done|exact Hnone|].
  apply (orphan_service_ignored productsB servicesB orphanService []);
    [compute_done|exact Hnone].
Defined.

Lemma input_fields_preserved_witness :
  length (calculateDistributedCosts productsB servicesB) = length productsB
  ∧ ∃ p, calculateDistributedCosts productsB servicesB !! 1%nat = Some p
      ∧ name (product p) = "B"%string
      ∧ unitCost (product p) = num 20
      ∧ quantity (product p) = num 5
      ∧ tariffRate (product p) = "T2"%string.
Proof.
  destruct (input_fields_preserved productsB servicesB) as [Hlength Hfields].
  split; [exact Hlength|].
  apply (Hfields 1%nat (mkProduct "B" (num 20) (num 5) "T2")). reflexivity.
Defined.

Lemma service_in_one_pool_witness :
  isComun upperCaseService
  ∧ upperCaseService ∈ comunServices ([] ++ upperCaseService :: servicesB)
  ∧ totalComunServiceCost ([] ++ upperCaseService :: servicesB)
    = fold_left (λ sum x, sum + cost x) (comunServices servicesB)
        (totalComunServiceCost [] + cost upperCaseService)
  ∧ distributeSpecific ([] ++ upperCaseService :: servicesB)
      (initProcessed <$> productsUpperCase)
    = distributeSpecific ([] ++ servicesB) (initProcessed <$> productsUpperCase).
Proof.
  destruct (service_in_one_pool [] upperCaseService servicesB)
    as (Hgeneral & _ & _ & _ & Hcomun & _).
  assert (isComun upperCaseService) as Hmarker by compute_done.
  destruct (Hcomun Hmarker) as (Htotal & _ & Hstep2).
  split_and!; [exact Hmarker|by apply Hgeneral|exact Htotal|by apply Hstep2].
Defined.

(** ** Product lines that are entered twice *)

Lemma NoDup_indicesFrom {A} (P : A → Prop) `{∀ x, Decision (P x)}
    (xs : list A) (k : nat) :
  NoDup (indicesFrom P k xs).
Proof.
  revert k. induction xs as [|x xs IH]; intros k; simpl; [constructor|].
  case_decide; [|done]. constructor; [|done].
  intros (y & Hle & _)%elem_of_indicesFrom. lia.
Qed.

Lemma product_allocateTo totalBase totalCost tpp i :
  product <$> allocateTo totalBase totalCost tpp i = product <$> tpp.
Proof. by rewrite !product_of_frame, frame_allocateTo. Qed.

(** With no two equal product lines, [findIndex] returns the index of [mp]
    itself. *)
Lemma allocateTo_distinct totalBase totalCost tpp i mp :
  NoDup (product <$> tpp) →
  tpp !! i = Some mp →
  allocateTo totalBase totalCost tpp i
  = alter (addSpecific (costAfterGeneralServices mp / totalBase * totalCost))
      i tpp.
Proof.
  intros Hnd Hi.
  destruct (allocateTo_alter totalBase totalCost tpp i mp Hi)
    as (j & p & Hj & Hp & _ & _ & ->).
  replace j with i; [done|].
  apply (NoDup_lookup (product <$> tpp) i j (product mp)); [done|..];
    rewrite list_lookup_fmap.
  - by rewrite Hi.
  - by rewrite Hj, <-Hp.
Qed.

Lemma forEach_distinct totalBase totalCost matching tpp k :
  NoDup (product <$> tpp) →
  NoDup matching →
  fold_left (allocateTo totalBase totalCost) matching tpp !! k
  = (λ p, if decide (k ∈ matching)
          then addSpecific
                 (costAfterGeneralServices p / totalBase * totalCost) p
          else p) <$> tpp !! k.
Proof.
  revert tpp. induction matching as [|i l IH]; intros tpp Hproducts Hnd.
  - cbn [fold_left]. destruct (tpp !! k) as [p|]; [|done].
    cbn [fmap option_fmap option_map].
    rewrite decide_False; [done|]. apply not_elem_of_nil.
  - apply NoDup_cons in Hnd as [Hi Hnd]. cbn [fold_left].
    rewrite IH; [|by rewrite product_allocateTo|done].
    destruct (tpp !! i) as [mp|] eqn:Hmp.
    + rewrite (allocateTo_distinct _ _ _ _ mp) by done.
      destruct (decide (i = k)) as [->|Hne].
      * rewrite list_lookup_alter_eq, Hmp. simpl.
        rewrite decide_False by done. rewrite decide_True; [done|left].
      * rewrite list_lookup_alter_ne by done.
        destruct (tpp !! k); simpl; [|done]. f_equal.
        apply decide_ext. rewrite elem_of_cons.
        split; [tauto|]. by intros [->|?].
    + unfold allocateTo. rewrite Hmp.
      destruct (tpp !! k) as [p|] eqn:Hk; simpl; [|done]. f_equal.
      apply decide_ext. rewrite elem_of_cons.
      split; [tauto|]. intros [->|?]; [congruence|done].
Qed.

(** Where no two product lines are equal, a rule of positive cost and
    positive base adds to every product of its tariff rate the share of
    that product, in its specific allocation and in its final cost, and
    leaves the other products alone. *)
Lemma distinct_lines_rule_shares services tpp r k p :
  NoDup (product <$> tpp) →
  0 < totalCostForThisRule services r →
  0 < totalBaseForRule tpp r →
  tpp !! k = Some p →
  distributeRule services tpp r !! k
  = Some (if decide (hasRate r p)
          then addSpecific (costAfterGeneralServices p / totalBaseForRule tpp r
                            * totalCostForThisRule services r) p
          else p).
Proof.
  intros Hnd Hcost Hbase Hk. unfold distributeRule.
  rewrite totalBase_filter.
  destruct (decide (length (matchingProducts tpp r) = 0%nat)) as [Hlen|_].
  { exfalso. rewrite <-totalBase_filter in Hbase.
    apply nil_length_inv in Hlen. rewrite Hlen in Hbase.
    by apply Qclt_not_eq in Hbase. }
  rewrite decide_True by done.
  rewrite forEach_distinct, Hk by (done || apply NoDup_indicesFrom).
  simpl. f_equal. apply decide_ext.
  rewrite matchingProducts_elem. split; [|by eauto].
  intros (mp & ? & ?). by simplify_eq.
Qed.

(** C2, on two product lines with the same name, unit cost, quantity and
    tariff rate "T1" and one service of cost 30 for "T1".  Both products
    match the rule, each with a cost after general services of 10 out of a
    total base of 20, so each is due 10 / 20 * 30 = 15.  [findIndex] locates
    the first line both times: the first product receives 30 and the second
    nothing. *)
Theorem duplicate_lines_misallocated :
  matchingProducts (initProcessed <$> productsTwice) "T1" = [0; 1]%nat
  ∧ totalCostForThisRule servicesB "T1" = num 30
  ∧ totalBaseForRule (calculateDistributedCosts productsTwice servicesB) "T1"
    = num 20
  ∧ (λ p, (costAfterGeneralServices p, allocatedSpecificCostSum p, finalCost p))
      <$> calculateDistributedCosts productsTwice servicesB
    = [(num 10, num 30, num 40); (num 10, num 0, num 10)]
  ∧ num 10 / num 20 * num 30 = num 15.
Proof. split_and!; compute_done. Qed.

(** ** The same invariants in the doubles of the code *)



(** ** The parsers *)

Lemma parseProductLine_lineNumber line index e :
  parseProductLine line index = Throw e → lineNumber e = (index + 1)%nat.
Proof.
  unfold parseProductLine. intros Hthrow.
  repeat (case_match; simplify_eq/=; try done).
Qed.

Lemma parseServiceLine_lineNumber line index e :
  parseServiceLine line index = Throw e → lineNumber e = (index + 1)%nat.
Proof.
  unfold parseServiceLine. intros Hthrow.
  repeat (case_match; simplify_eq/=; try done).
Qed.

(** The exception of a map is the exception of the callback on the first
    element on which it throws. *)
Lemma mapIndexed_Throw {E A B} (f : A → nat → result E B) (xs : list A)
    (index : nat) (e : E) :
  mapIndexed f index xs = Throw e →
  ∃ i x, xs !! i = Some x ∧ f x (index + i)%nat = Throw e
    ∧ ∀ j y, (j < i)%nat → xs !! j = Some y →
        ∃ b, f y (index + j)%nat = Return b.
Proof.
  revert index. induction xs as [|x xs IH]; intros index Hthrow; [done|].
  simpl in Hthrow. destruct (f x index) as [b|e'] eqn:Hx.
  - destruct (mapIndexed f (S index) xs) as [bs|e''] eqn:Hxs; [done|].
    simplify_eq. destruct (IH (S index) Hxs) as (i & y & Hy & Hf & Hbefore).
    exists (S i), y. split_and!; [done|by rewrite Nat.add_succ_r|].
    intros [|j] z Hlt Hz; simplify_eq/=.
    + exists b. by rewrite Nat.add_0_r.
    + rewrite Nat.add_succ_r. apply (Hbefore j z); [lia|done].
  - simplify_eq. exists 0%nat, x. split_and!; [done|by rewrite Nat.add_0_r|].
    intros j y Hlt. lia.
Qed.

(** The line number of a parse error is the rank of the offending line
    among the lines that are not blank. *)
Lemma parseProductsFile_Throw content e :
  parseProductsFile content = Throw e →
  ∃ line, nonBlankLines content !! (lineNumber e - 1)%nat = Some line
    ∧ (1 ≤ lineNumber e)%nat
    ∧ parseProductLine line (lineNumber e - 1) = Throw e.
Proof.
  intros (i & line & Hline & Hthrow & _)%mapIndexed_Throw.
  pose proof (parseProductLine_lineNumber _ _ _ Hthrow) as Hnumber.
  simpl in *. exists line. rewrite Hnumber.
  replace (i + 1 - 1)%nat with i by lia. split_and!; [done|lia|done].
Qed.

Lemma parseServicesFile_Throw content e :
  parseServicesFile content = Throw e →
  ∃ line, nonBlankLines content !! (lineNumber e - 1)%nat = Some line
    ∧ (1 ≤ lineNumber e)%nat
    ∧ parseServiceLine line (lineNumber e - 1) = Throw e.
Proof.
  intros (i & line & Hline & Hthrow & _)%mapIndexed_Throw.
  pose proof (parseServiceLine_lineNumber _ _ _ Hthrow) as Hnumber.
  simpl in *. exists line. rewrite Hnumber.
  replace (i + 1 - 1)%nat with i by lia. split_and!; [done|lia|done].
Qed.

(** C8, on a product file and a service file whose second line is blank and
    whose third line is malformed.  The malformed line is line 3 of the
    text, and the error of each parser carries line number 2: the lines are
    numbered after the blank ones are filtered out. *)
Theorem parse_error_line_after_blank :
  split "010" productsText !! 2%nat = Some "Gadget,abc,1,R2"%string
  ∧ parseProductsFile productsText
    = Throw (mkParseError 2 (InvalidUnitCost "abc"))
  ∧ split "010" servicesText !! 2%nat = Some "P2,Tax,T1"%string
  ∧ parseServicesFile servicesText
    = Throw (mkParseError 2 (ExpectedFourFields "P2,Tax,T1")).
Proof. split_and!; reflexivity. Qed.

(** * Further properties of the code *)

(** ** Where the service costs go *)

Lemma sumOf_plus {A} (f g : A → Qc) (xs : list A) :
  sumOf (λ x, f x + g x) xs = sumOf f xs + sumOf g xs.
Proof.
  induction xs as [|x xs IH].
  - rewrite !sumOf_nil. ring.
  - rewrite !sumOf_cons, IH. ring.
Qed.

Lemma sumOf_nonneg {A} (f : A → Qc) (xs : list A) :
  (∀ x, x ∈ xs → 0 ≤ f x) → 0 ≤ sumOf f xs.
Proof.
  induction xs as [|x xs IH]; intros Hf.
  - by rewrite sumOf_nil.
  - rewrite sumOf_cons. apply Qcplus_nonneg_nonneg.
    + apply Hf. left.
    + apply IH. intros y Hy. apply Hf. by right.
Qed.

Lemma sumOf_le {A} (f g : A → Qc) (xs : list A) :
  (∀ x, x ∈ xs → f x ≤ g x) → sumOf f xs ≤ sumOf g xs.
Proof.
  induction xs as [|x xs IH]; intros Hfg.
  - by rewrite !sumOf_nil.
  - rewrite !sumOf_cons. apply Qcplus_le_compat.
    + apply Hfg. left.
    + apply IH. intros y Hy. apply Hfg. by right.
Qed.

(** A key that occurs once in a list of keys selects one term of a sum over
    the keys. *)
Lemma sumOf_indicator (c : Qc) (k : string) (keys : list string) :
  NoDup keys → k ∈ keys →
  sumOf (λ r, if decide (k = r) then c else 0) keys = c.
Proof.
  induction keys as [|r keys IH]; intros Hnd Hk; [by apply elem_of_nil in Hk|].
  apply NoDup_cons in Hnd as [Hr Hnd]. rewrite sumOf_cons.
  destruct (decide (k = r)) as [->|Hne].
  - rewrite (sumOf_ext _ (λ _, 0)); [rewrite sumOf_zero; ring|].
    intros r' Hr'. rewrite decide_False; [done|]. by intros ->.
  - apply elem_of_cons in Hk as [?|Hk]; [done|]. rewrite IH by done. ring.
Qed.

(** Grouping the elements selected by [P] by their key. *)
Lemma sumOf_grouped {A} (f : A → Qc) (key : A → string) (P : A → Prop)
    `{∀ x, Decision (P x)} (keys : list string) (xs : list A) :
  NoDup keys →
  (∀ x, x ∈ xs → P x → key x ∈ keys) →
  (∀ x, x ∈ xs → key x ∈ keys → P x) →
  sumOf (λ r, sumOf f (filter (λ x, key x = r) xs)) keys
  = sumOf f (filter P xs).
Proof.
  intros Hnd. induction xs as [|x xs IH]; intros Hin Hout.
  - rewrite filter_nil, sumOf_nil. apply sumOf_zero.
  - assert (sumOf (λ r, sumOf f (filter (λ y, key y = r) xs)) keys
            = sumOf f (filter P xs)) as IH'.
    { apply IH; intros y Hy; [apply Hin|apply Hout]; by right. }
    rewrite (sumOf_ext _ (λ r, (if decide (key x = r) then f x else 0)
                               + sumOf f (filter (λ y, key y = r) xs))).
    2:{ intros r _. rewrite filter_cons.
        destruct (decide (key x = r)); [by rewrite sumOf_cons|ring]. }
    rewrite sumOf_plus, IH', filter_cons.
    destruct (decide (P x)) as [HP|HP].
    + rewrite sumOf_indicator, sumOf_cons; [done..|]. apply Hin; [left|done].
    + rewrite (sumOf_ext _ (λ _, 0)); [rewrite sumOf_zero; ring|].
      intros r Hr. rewrite decide_False; [done|]. intros Heq.
      apply HP, Hout; [left|]. by rewrite Heq.
Qed.

Lemma sumOf_filter_split {A} (f : A → Qc) (P : A → Prop)
    `{∀ x, Decision (P x)} (xs : list A) :
  sumOf f xs = sumOf f (filter P xs) + sumOf f (filter (λ x, ¬ P x) xs).
Proof.
  induction xs as [|x xs IH]; [rewrite !filter_nil, !sumOf_nil; ring|].
  rewrite !filter_cons, sumOf_cons, IH.
  destruct (decide (P x)).
  - rewrite decide_False by tauto. rewrite sumOf_cons. ring.
  - rewrite decide_True by done. rewrite sumOf_cons. ring.
Qed.

Lemma services_partitioned services :
  sumOf cost services
  = totalComunServiceCost services
    + sumOf (totalCostForThisRule services) (specificTariffRules services).
Proof.
  rewrite (sumOf_filter_split cost isComun). f_equal.
  symmetry. apply sumOf_grouped.
  - apply NoDup_specificTariffRules.
  - intros s Hs Hnot. apply elem_of_specificTariffRules. by exists s.
  - intros s Hs (s' & _ & Hs' & Heq)%elem_of_specificTariffRules.
    unfold isComun in *. by rewrite <-Heq.
Qed.

(** X1. Over exact rational arithmetic (sums that do not round), the costs
    of the services are split between the pools without loss or double
    counting: the total service cost is the total of the general services
    plus the totals of the specific rules. *)
Theorem service_cost_partition services :
  sumOf cost services
  = totalComunServiceCost services
    + sumOf (totalCostForThisRule services) (specificTariffRules services).
Proof. apply services_partitioned. Qed.

(** ** Where the final costs come from *)

Lemma general_sum_distributeComun services products :
  sumOf allocatedGeneralCostSum
    (distributeComun services (initProcessed <$> products))
  = if decide (0 < totalComunServiceCost services
               ∧ 0 < totalInitialProductValue (initProcessed <$> products))
    then totalComunServiceCost services else 0.
Proof.
  unfold distributeComun.
  set (value := totalInitialProductValue (initProcessed <$> products)).
  set (total := totalComunServiceCost services).
  destruct (decide (0 < total ∧ 0 < value)) as [[Hc Hv]|_].
  - rewrite <-list_fmap_compose, sumOf_fmap.
    rewrite (sumOf_ext _ (λ q, unitCost q * quantity q / value * total)).
    + rewrite sumOf_shares, <-totalInitialProductValue_init.
      by apply Qc_share_total.
    + intros q _. simpl. ring.
  - apply sumOf_all_zero, Forall_fmap, Forall_forall. done.
Qed.

Lemma initial_sum_distributeComun services tpp :
  sumOf initialCost (distributeComun services tpp) = sumOf initialCost tpp.
Proof.
  unfold distributeComun. case_decide; [|done]. by rewrite sumOf_fmap.
Qed.

Lemma initial_sum_frame tpp tpp' :
  frame <$> tpp = frame <$> tpp' →
  sumOf initialCost tpp = sumOf initialCost tpp'.
Proof. apply (frame_sumOf (λ fr, fr.1.1.2)). Qed.

Lemma general_sum_frame tpp tpp' :
  frame <$> tpp = frame <$> tpp' →
  sumOf allocatedGeneralCostSum tpp = sumOf allocatedGeneralCostSum tpp'.
Proof. apply (frame_sumOf snd). Qed.

Lemma fold_distributeRule_total services rules tpp :
  sumOf allocatedSpecificCostSum
    (fold_left (distributeRule services) rules tpp)
  = sumOf allocatedSpecificCostSum tpp
    + sumOf (λ r, if decide (0 < totalCostForThisRule services r
                             ∧ 0 < totalBaseForRule tpp r)
                  then totalCostForThisRule services r else 0) rules.
Proof.
  revert tpp. induction rules as [|r0 rules IH]; intros tpp; cbn [fold_left].
  - rewrite sumOf_nil. ring.
  - rewrite IH, distributeRule_total, sumOf_cons, <-Qcplus_assoc.
    do 2 f_equal. apply sumOf_ext. intros r _.
    by rewrite (totalBaseForRule_frame (distributeRule services tpp r0) tpp)
      by apply frame_distributeRule.
Qed.

Lemma final_sum_consistent tpp :
  Forall costsConsistent tpp →
  sumOf finalCost tpp
  = sumOf initialCost tpp + sumOf allocatedGeneralCostSum tpp
    + sumOf allocatedSpecificCostSum tpp.
Proof.
  rewrite Forall_forall. intros Hall. rewrite <-!sumOf_plus.
  apply sumOf_ext. intros p Hp. by destruct (Hall p Hp) as (_ & _ & ->).
Qed.

Lemma final_sum_accounted products services :
  sumOf finalCost (calculateDistributedCosts products services)
  = sumOf (λ q, unitCost q * quantity q) products
    + (if decide (0 < totalComunServiceCost services
                  ∧ 0 < totalInitialProductValue (initProcessed <$> products))
       then totalComunServiceCost services else 0)
    + sumOf (λ r,
        if decide (0 < totalCostForThisRule services r
                   ∧ 0 < totalBaseForRule
                           (calculateDistributedCosts products services) r)
        then totalCostForThisRule services r else 0)
        (specificTariffRules services).
Proof.
  rewrite final_sum_consistent by apply costsConsistent_output.
  unfold calculateDistributedCosts.
  set (tpp := distributeComun services (initProcessed <$> products)).
  assert (frame <$> distributeSpecific services tpp = frame <$> tpp) as Hfr
    by apply frame_distributeSpecific.
  rewrite (initial_sum_frame _ tpp Hfr), (general_sum_frame _ tpp Hfr).
  unfold distributeSpecific at 1. rewrite fold_distributeRule_total.
  rewrite (sumOf_all_zero allocatedSpecificCostSum tpp)
    by apply specific_before_step2.
  unfold tpp at 1 2.
  rewrite general_sum_distributeComun, initial_sum_distributeComun.
  rewrite <-totalInitialProductValue_init. unfold totalInitialProductValue.
  rewrite Qcplus_0_l. f_equal. apply sumOf_ext. intros r _.
  by rewrite (totalBaseForRule_frame _ tpp r Hfr).
Qed.

(** X2. The final costs of the output add up to the initial costs of the
    products, plus the total of the general services when that total and the
    total initial value are both positive, plus the total of every specific
    rule that has a positive total and a positive base. *)
Theorem final_cost_accounting products services :
  sumOf finalCost (calculateDistributedCosts products services)
  = sumOf (λ q, unitCost q * quantity q) products
    + (if decide (0 < totalComunServiceCost services
                  ∧ 0 < totalInitialProductValue (initProcessed <$> products))
       then totalComunServiceCost services else 0)
    + sumOf (λ r,
        if decide (0 < totalCostForThisRule services r
                   ∧ 0 < totalBaseForRule
                           (calculateDistributedCosts products services) r)
        then totalCostForThisRule services r else 0)
        (specificTariffRules services).
Proof. apply final_sum_accounted. Qed.

Lemma totalCostForThisRule_nonneg services r :
  Forall (λ s, 0 ≤ cost s) services → 0 ≤ totalCostForThisRule services r.
Proof.
  rewrite Forall_forall. intros Hs. apply sumOf_nonneg.
  intros s [_ ?]%list_elem_of_filter. by apply Hs.
Qed.

Lemma totalComunServiceCost_nonneg services :
  Forall (λ s, 0 ≤ cost s) services → 0 ≤ totalComunServiceCost services.
Proof.
  rewrite Forall_forall. intros Hs. apply sumOf_nonneg.
  intros s [_ ?]%list_elem_of_filter. by apply Hs.
Qed.

Lemma final_sum_bounded products services :
  nonNegativeInput products services →
  sumOf finalCost (calculateDistributedCosts products services)
  ≤ sumOf (λ q, unitCost q * quantity q) products + sumOf cost services.
Proof.
  intros [_ Hservices].
  rewrite final_sum_accounted, services_partitioned, <-Qcplus_assoc.
  apply Qcplus_le_mono_l, Qcplus_le_compat.
  - case_decide; [done|]. by apply totalComunServiceCost_nonneg.
  - apply sumOf_le. intros r _. case_decide; [done|].
    by apply totalCostForThisRule_nonneg.
Qed.

(** X3. Over exact rational arithmetic (no rounding, no overflow), when no
    cost or quantity of the input is negative, the allocation never hands
    out more than there is: the final costs add up to at most the total
    product cost plus the total service cost. *)
Theorem final_cost_at_most_global products services :
  nonNegativeInput products services →
  sumOf finalCost (calculateDistributedCosts products services)
  ≤ sumOf (λ q, unitCost q * quantity q) products + sumOf cost services.
Proof. apply final_sum_bounded. Qed.

(** X4. Over exact rational arithmetic (no rounding, no overflow), when no
    cost or quantity of the input is negative, the products have a positive
    total initial value and every specific rule has a positive base,
    nothing is dropped: the final costs add up to the total product cost
    plus the total service cost. *)
Theorem final_cost_is_global products services :
  nonNegativeInput products services →
  0 < totalInitialProductValue (initProcessed <$> products) →
  (∀ r, r ∈ specificTariffRules services →
        0 < totalBaseForRule (calculateDistributedCosts products services) r) →
  sumOf finalCost (calculateDistributedCosts products services)
  = sumOf (λ q, unitCost q * quantity q) products + sumOf cost services.
Proof.
  intros [_ Hservices] Hvalue Hbases.
  rewrite final_sum_accounted, services_partitioned, <-Qcplus_assoc.
  do 2 f_equal.
  - pose proof (totalComunServiceCost_nonneg _ Hservices) as Hc.
    apply Qcle_lt_or_eq in Hc as [Hc|Hc].
    + by rewrite decide_True.
    + rewrite decide_False; [done|]. intros [Hlt _]. rewrite <-Hc in Hlt.
      by apply Qclt_not_eq in Hlt.
  - apply sumOf_ext. intros r Hr.
    pose proof (totalCostForThisRule_nonneg _ r Hservices) as Hc.
    apply Qcle_lt_or_eq in Hc as [Hc|Hc].
    + rewrite decide_True; [done|]. split; [done|]. by apply Hbases.
    + rewrite decide_False; [done|]. intros [Hlt _]. rewrite <-Hc in Hlt.
      by apply Qclt_not_eq in Hlt.
Qed.

(** ** Who receives what in step 2 *)

Lemma lookup_same_product tpp tpp' i mp :
  product <$> tpp = product <$> tpp' →
  tpp !! i = Some mp →
  ∃ mp', tpp' !! i = Some mp' ∧ product mp' = product mp.
Proof.
  intros Heq Hi. apply (f_equal (.!! i)) in Heq.
  rewrite !list_lookup_fmap, Hi in Heq.
  destruct (tpp' !! i) as [mp'|]; [|done]. exists mp'. by simplify_eq/=.
Qed.

(** An invariant of step 2 that may use what the code knows of a write: the
    receiver has the product fields of the matching product whose share it
    receives, and that product has the tariff rate of the rule. *)
Section step2_receiver.
Context (Q : ProcessedProduct → Prop) (r : string).
Context (Q_receive : ∀ totalBase totalCost mp p,
  0 < totalCost → 0 < totalBase → hasRate r mp → product p = product mp →
  Q mp → Q p →
  Q (addSpecific (costAfterGeneralServices mp / totalBase * totalCost) p)).

Lemma allocateTo_receiver totalBase totalCost tpp i :
  0 < totalCost → 0 < totalBase →
  (∀ mp, tpp !! i = Some mp → hasRate r mp) →
  Forall Q tpp → Forall Q (allocateTo totalBase totalCost tpp i).
Proof.
  intros Hc Hb Hrate HQ. destruct (tpp !! i) as [mp|] eqn:Hi.
  - destruct (allocateTo_alter totalBase totalCost tpp i mp Hi)
      as (j & p & Hj & Hp & _ & _ & ->).
    apply Forall_alter; [done|]. intros q Hq HQq. simplify_eq.
    apply Q_receive; [done|done|by apply Hrate|done| |done].
    rewrite Forall_lookup in HQ. by eapply HQ.
  - unfold allocateTo. by rewrite Hi.
Qed.

Lemma forEach_receiver totalBase totalCost matching tpp :
  0 < totalCost → 0 < totalBase →
  Forall (λ i, ∀ mp, tpp !! i = Some mp → hasRate r mp) matching →
  Forall Q tpp →
  Forall Q (fold_left (allocateTo totalBase totalCost) matching tpp).
Proof.
  intros Hc Hb. revert tpp.
  induction matching as [|i l IH]; intros tpp Hrate HQ; [done|].
  apply Forall_cons in Hrate as [Hi Hl]. cbn [fold_left]. apply IH.
  - eapply Forall_impl; [exact Hl|]. intros k Hk mp' Hmp'.
    destruct (lookup_same_product _ tpp k mp'
                (product_allocateTo totalBase totalCost tpp i) Hmp')
      as (mp & Hmp & Hsame).
    unfold hasRate. rewrite <-Hsame. by apply Hk.
  - by apply allocateTo_receiver.
Qed.

Lemma distributeRule_receiver services tpp :
  Forall Q tpp → Forall Q (distributeRule services tpp r).
Proof.
  intros HQ. unfold distributeRule. case_decide; [done|].
  case_decide as Hpos; [|done]. destruct Hpos as [Hc Hb].
  apply forEach_receiver; [done..| |done].
  apply Forall_forall. intros i (mp & Hmp & Hrate)%matchingProducts_elem.
  intros mp' Hmp'. by simplify_eq.
Qed.
End step2_receiver.

Lemma fold_distributeRule_receiver (Q : ProcessedProduct → Prop)
    services rules tpp :
  (∀ r totalBase totalCost mp p,
     r ∈ rules → 0 < totalCost → 0 < totalBase →
     hasRate r mp → product p = product mp → Q mp → Q p →
     Q (addSpecific (costAfterGeneralServices mp / totalBase * totalCost) p)) →
  Forall Q tpp → Forall Q (fold_left (distributeRule services) rules tpp).
Proof.
  revert tpp. induction rules as [|r rules IH]; intros tpp Hstep HQ; [done|].
  cbn [fold_left]. apply IH.
  - intros r' ?????. apply Hstep. by right.
  - apply distributeRule_receiver; [|done].
    intros ????. apply Hstep. left.
Qed.

Lemma Qc_share_of_zero (b c : Qc) : 0 / b * c = 0.
Proof. unfold Qcdiv. ring. Qed.

Lemma nothingForNothing_output products services :
  Forall nothingForNothing (calculateDistributedCosts products services).
Proof.
  unfold calculateDistributedCosts, distributeSpecific.
  apply fold_distributeRule_receiver.
  - intros r totalBase totalCost mp p _ _ _ _ Hsame [Hmp Hmp0] [Hp Hp0].
    split; [by apply costsConsistent_addSpecific|]. simpl. intros Hzero.
    destruct (Hp0 Hzero) as [Hc Hf]. split; [done|].
    destruct Hmp as (Hmpi & _), Hp as (Hpi & _).
    assert (initialCost mp = 0) as Hmpzero
      by by rewrite Hmpi, <-Hsame, <-Hpi.
    destruct (Hmp0 Hmpzero) as [-> _].
    rewrite Qc_share_of_zero, Hf. ring.
  - assert (Forall nothingForNothing (initProcessed <$> products)) as Hinit.
    { apply Forall_fmap, Forall_forall. intros q _.
      split; [apply costsConsistent_initProcessed|done]. }
    unfold distributeComun. case_decide; [|done].
    apply Forall_fmap. eapply Forall_impl; [exact Hinit|].
    intros p [Hp Hp0]. split; [by apply costsConsistent_addGeneral|].
    simpl. intros Hzero. destruct (Hp0 Hzero) as [Hc Hf].
    rewrite Hzero, Qc_share_of_zero, Hc, Hf. split; ring.
Qed.

(** X5. Over exact rational arithmetic (no rounding, no overflow, so that
    every total is a number), a product line of unit cost zero or of
    quantity zero receives nothing: its share of the general services, its
    share of every specific rule and its final cost are zero, whatever the
    services are. *)
Theorem worthless_line_receives_nothing products services :
  Forall (λ p,
      unitCost (product p) = 0 ∨ quantity (product p) = 0 →
      allocatedGeneralCostSum p = 0
      ∧ allocatedSpecificCostSum p = 0
      ∧ finalCost p = 0)
    (calculateDistributedCosts products services).
Proof.
  eapply Forall_impl; [apply nothingForNothing_output|].
  intros p [(Hi & Hc & Hf) Hzero] Hline.
  assert (initialCost p = 0) as Hi0.
  { rewrite Hi. destruct Hline as [-> | ->]; ring. }
  destruct (Hzero Hi0) as [Hc0 Hf0].
  assert (allocatedGeneralCostSum p = 0) as Hg.
  { rewrite Hi0, Qcplus_0_l in Hc. by rewrite <-Hc. }
  split_and!; [done| |done].
  rewrite Hi0, Hg, !Qcplus_0_l in Hf. by rewrite <-Hf.
Qed.



(** ** The rows of the results table *)

Lemma Qc_pos_neq (x : Qc) : 0 < x → x ≠ 0.
Proof. intros Hx ->. by apply Qclt_not_eq in Hx. Qed.

Lemma Qc_div_pos (x d : Qc) : 0 < x → 0 < d → 0 < x / d.
Proof. intros Hx Hd. apply Qcmult_pos_pos; [done|]. by apply Qcinv_pos. Qed.

Lemma Qc_div_le_mono (x y d : Qc) : 0 < d → x ≤ y → x / d ≤ y / d.
Proof.
  intros Hd Hxy. apply Qcmult_le_mono_nonneg_r; [|done].
  by apply Qclt_le_weak, Qcinv_pos.
Qed.

Lemma Qc_div_mul_cancel (x d : Qc) : d ≠ 0 → x / d * d = x.
Proof. intros Hd. by field. Qed.

Lemma Qc_mul_div_cancel (x d : Qc) : d ≠ 0 → x * d / d = x.
Proof. intros Hd. by field. Qed.

Lemma finalUnitCost_positive p :
  0 < quantity (product p) →
  finalUnitCost p = finalCost p / quantity (product p)
  ∧ (0 < finalUnitCost p ↔ 0 < finalCost p).
Proof.
  intros Hq. unfold finalUnitCost. rewrite decide_True by done.
  split; [done|]. split.
  - intros Hpos.
    rewrite <-(Qc_div_mul_cancel (finalCost p) (quantity (product p)))
      by by apply Qc_pos_neq.
    by apply Qcmult_pos_pos.
  - intros Hpos. by apply Qc_div_pos.
Qed.

Lemma costsMonotone_output products services :
  nonNegativeInput products services →
  Forall costsMonotone (calculateDistributedCosts products services).
Proof.
  intros [Hproducts _]. unfold calculateDistributedCosts.
  apply distributeSpecific_Forall; [apply costsMonotone_addSpecific|].
  assert (Forall costsMonotone (initProcessed <$> products)) as Hinit.
  { apply Forall_fmap. eapply Forall_impl; [exact Hproducts|].
    intros q [? ?]. by apply costsMonotone_initProcessed. }
  unfold distributeComun. case_decide as Hpos; [|done].
  destruct Hpos as [Hc Hv].
  apply Forall_fmap. eapply Forall_impl; [exact Hinit|].
  intros p Hp. apply costsMonotone_addGeneral; [|done].
  apply Qc_share_nonneg; [|done..]. by destruct Hp.
Qed.

(** X7. The factor column never reads "Infinito" on a row of the
    allocation: a product of unit cost zero has a final cost of zero, so the
    second branch of the factor is not reached. *)
Theorem factor_never_infinite products services :
  Forall (λ p, costIncreaseFactor p ≠ Infinito)
    (calculateDistributedCosts products services).
Proof.
  eapply Forall_impl; [apply nothingForNothing_output|].
  intros p [(Hi & _) Hzero]. unfold costIncreaseFactor.
  case_decide; [done|]. case_decide as Hinf; [|done]. exfalso.
  destruct Hinf as (Hu & Hpos & Hq).
  apply (finalUnitCost_positive p Hq) in Hpos.
  destruct Hzero as [_ Hf]; [rewrite Hi, Hu; ring|].
  rewrite Hf in Hpos. by apply Qclt_not_eq in Hpos.
Qed.

(** X8. Over exact rational arithmetic (no rounding, no overflow), when no
    cost or quantity of the input is negative, a row with a positive unit
    cost and a positive quantity shows a factor, this factor is at least 1,
    and it is the exact ratio of the final cost to the initial cost of the
    row (before [toFixed] formats it). *)
Theorem factor_at_least_one products services :
  nonNegativeInput products services →
  Forall (λ p,
      0 < unitCost (product p) → 0 < quantity (product p) →
      ∃ ratio, costIncreaseFactor p = Times ratio
        ∧ 1 ≤ ratio
        ∧ ratio * initialCost p = finalCost p)
    (calculateDistributedCosts products services).
Proof.
  intros Hinput.
  pose proof (costsMonotone_output _ _ Hinput) as Hmono.
  pose proof (costsConsistent_output products services) as Hcons.
  rewrite Forall_forall in Hmono, Hcons. apply Forall_forall.
  intros p Hp Hu Hq.
  destruct (Hmono p Hp) as (_ & H1 & H2), (Hcons p Hp) as (Hi & _).
  assert (unitCost (product p) * quantity (product p) ≤ finalCost p) as Hle.
  { rewrite <-Hi. by trans (costAfterGeneralServices p). }
  assert (0 < finalCost p) as Hf.
  { eapply Qclt_le_trans; [|exact Hle]. by apply Qcmult_pos_pos. }
  destruct (finalUnitCost_positive p Hq) as [Hfuc Hpos].
  exists (finalUnitCost p / unitCost (product p)). split_and!.
  - unfold costIncreaseFactor. rewrite decide_True; [done|].
    split_and!; [done..|]. by apply Hpos.
  - rewrite Hfuc.
    rewrite <-(Qc_mul_div_cancel 1 (unitCost (product p)))
      by by apply Qc_pos_neq.
    apply Qc_div_le_mono; [done|]. rewrite Qcmult_1_l.
    rewrite <-(Qc_mul_div_cancel (unitCost (product p)) (quantity (product p)))
      by by apply Qc_pos_neq.
    by apply Qc_div_le_mono.
  - rewrite Hfuc, Hi. field. split; by apply Qc_pos_neq.
Qed.


(** X10. Over exact rational arithmetic (no rounding, no overflow), when
    no cost or quantity of the input is negative, the final unit cost of a
    row of positive quantity is at least the unit cost of the product, and
    times the quantity it gives back the final cost. *)
Theorem final_unit_cost_bounds products services :
  nonNegativeInput products services →
  Forall (λ p,
      0 < quantity (product p) →
      unitCost (product p) ≤ finalUnitCost p
      ∧ finalUnitCost p * quantity (product p) = finalCost p)
    (calculateDistributedCosts products services).
Proof.
  intros Hinput.
  pose proof (costsMonotone_output _ _ Hinput) as Hmono.
  pose proof (costsConsistent_output products services) as Hcons.
  rewrite Forall_forall in Hmono, Hcons. apply Forall_forall.
  intros p Hp Hq.
  destruct (Hmono p Hp) as (_ & H1 & H2), (Hcons p Hp) as (Hi & _).
  destruct (finalUnitCost_positive p Hq) as [-> _]. split.
  - rewrite <-(Qc_mul_div_cancel (unitCost (product p)) (quantity (product p)))
      at 1 by by apply Qc_pos_neq.
    apply Qc_div_le_mono; [done|]. rewrite <-Hi.
    by trans (costAfterGeneralServices p).
  - by apply Qc_div_mul_cancel, Qc_pos_neq.
Qed.

(** ** What the parsers return *)

Lemma mapIndexed_Return {E A B} (f : A → nat → result E B) (xs : list A)
    (index : nat) (ys : list B) :
  mapIndexed f index xs = Return ys →
  length ys = length xs
  ∧ ∀ i y, ys !! i = Some y →
      ∃ x, xs !! i = Some x ∧ f x (index + i)%nat = Return y.
Proof.
  revert index ys. induction xs as [|x xs IH]; intros index ys Hret.
  - simpl in Hret. simplify_eq. split; [done|]. intros i y Hy.
    by rewrite lookup_nil in Hy.
  - simpl in Hret. destruct (f x index) as [b|e] eqn:Hx; [|done].
    destruct (mapIndexed f (S index) xs) as [bs|e] eqn:Hxs; [|done].
    simplify_eq. destruct (IH (S index) bs Hxs) as [Hlen Hbs].
    split; [simpl; by rewrite Hlen|].
    intros [|i] y Hy; simplify_eq/=.
    + exists x. by rewrite Nat.add_0_r.
    + destruct (Hbs i y Hy) as (x' & Hx' & Hf). exists x'.
      by rewrite Nat.add_succ_r.
Qed.

Lemma parseProductLine_Return line index q :
  parseProductLine line index = Return q →
  0 ≤ unitCost q ∧ 0 ≤ quantity q
  ∧ name q ≠ EmptyString ∧ tariffRate q ≠ EmptyString.
Proof.
  unfold parseProductLine. intros Hret.
  repeat (case_match; try done). simplify_eq/=.
  split_and!; [by apply Qcnot_lt_le|by apply Qcnot_lt_le|done|done].
Qed.

Lemma parseServiceLine_Return line index s :
  parseServiceLine line index = Return s →
  0 ≤ cost s ∧ providerName s ≠ EmptyString ∧ serviceName s ≠ EmptyString
  ∧ distributionRule s ≠ EmptyString.
Proof.
  unfold parseServiceLine. intros Hret.
  repeat (case_match; try done). simplify_eq/=.
  split_and!; [by apply Qcnot_lt_le|done..].
Qed.

Lemma parseProductsFile_valid content products :
  parseProductsFile content = Return products →
  length products = length (nonBlankLines content)
  ∧ Forall (λ q, 0 ≤ unitCost q ∧ 0 ≤ quantity q
                 ∧ name q ≠ EmptyString ∧ tariffRate q ≠ EmptyString)
      products.
Proof.
  intros [Hlen Hall]%mapIndexed_Return. split; [done|].
  apply Forall_lookup. intros i q Hq.
  destruct (Hall i q Hq) as (line & _ & Hline).
  by eapply parseProductLine_Return.
Qed.

Lemma parseServicesFile_valid content services :
  parseServicesFile content = Return services →
  length services = length (nonBlankLines content)
  ∧ Forall (λ s, 0 ≤ cost s ∧ providerName s ≠ EmptyString
                 ∧ serviceName s ≠ EmptyString
                 ∧ distributionRule s ≠ EmptyString)
      services.
Proof.
  intros [Hlen Hall]%mapIndexed_Return. split; [done|].
  apply Forall_lookup. intros i s Hs.
  destruct (Hall i s Hs) as (line & _ & Hline).
  by eapply parseServiceLine_Return.
Qed.

(** X11. A product file that parses gives one product per non-blank line,
    and every product has a unit cost and a quantity that are not negative,
    and a name and a tariff rate that are not empty. *)
Theorem parsed_products_valid content products :
  parseProductsFile content = Return products →
  length products = length (nonBlankLines content)
  ∧ Forall (λ q, 0 ≤ unitCost q ∧ 0 ≤ quantity q
                 ∧ name q ≠ EmptyString ∧ tariffRate q ≠ EmptyString)
      products.
Proof. apply parseProductsFile_valid. Qed.

(** X12. A service file that parses gives one service per non-blank line,
    and every service has a non-negative cost and a provider name, a
    service name and a distribution rule that are not empty. *)
Theorem parsed_services_valid content services :
  parseServicesFile content = Return services →
  length services = length (nonBlankLines content)
  ∧ Forall (λ s, 0 ≤ cost s ∧ providerName s ≠ EmptyString
                 ∧ serviceName s ≠ EmptyString
                 ∧ distributionRule s ≠ EmptyString)
      services.
Proof. apply parseServicesFile_valid. Qed.

(** X13. The error of a parser is the first one of the file: every
    non-blank line before the line of the error parses. *)
Theorem parse_error_is_first content e :
  (parseProductsFile content = Throw e →
   ∀ j line, (j < lineNumber e - 1)%nat →
     nonBlankLines content !! j = Some line →
     ∃ q, parseProductLine line j = Return q)
  ∧ (parseServicesFile content = Throw e →
     ∀ j line, (j < lineNumber e - 1)%nat →
       nonBlankLines content !! j = Some line →
       ∃ s, parseServiceLine line j = Return s).
Proof.
  split.
  - intros (i & l & Hl & Hthrow & Hbefore)%mapIndexed_Throw j line Hj Hline.
    apply parseProductLine_lineNumber in Hthrow. simpl in *.
    apply (Hbefore j line); [lia|done].
  - intros (i & l & Hl & Hthrow & Hbefore)%mapIndexed_Throw j line Hj Hline.
    apply parseServiceLine_lineNumber in Hthrow. simpl in *.
    apply (Hbefore j line); [lia|done].
Qed.

(** ** Lines and fields *)

Lemma split_nonempty sep s : split sep s ≠ [].
Proof. destruct s as [|c t]; simpl; [done|]. repeat case_match; done. Qed.

Lemma split_app sep (a b : string) :
  split sep (a +:+ String sep b) = split sep a ++ split sep b.
Proof.
  induction a as [|c a IH]; simpl.
  - by rewrite decide_True.
  - change (String.append a (String sep b)) with (a +:+ String sep b).
    rewrite IH. case_decide; [done|].
    pose proof (split_nonempty sep a). by destruct (split sep a).
Qed.

Lemma nonBlankLines_app (a b : string) :
  nonBlankLines (a +:+ String "010" b) = nonBlankLines a ++ nonBlankLines b.
Proof. unfold nonBlankLines. by rewrite split_app, filter_app. Qed.

Lemma nonBlankLines_insert (a blank b : string) :
  nonBlankLines blank = [] →
  nonBlankLines (a +:+ String "010" (blank +:+ String "010" b))
  = nonBlankLines (a +:+ String "010" b).
Proof. intros Hblank. by rewrite !nonBlankLines_app, Hblank. Qed.

(** X14. Blank lines are ignored by a parse that succeeds: a text with
    lines that are all blank, inserted between two lines of a file, leaves
    the products and the services that are read unchanged. *)
Theorem blank_lines_ignored (a blank b : string) :
  nonBlankLines blank = [] →
  (∀ products,
     parseProductsFile (a +:+ String "010" b) = Return products →
     parseProductsFile (a +:+ String "010" (blank +:+ String "010" b))
     = Return products)
  ∧ (∀ services,
       parseServicesFile (a +:+ String "010" b) = Return services →
       parseServicesFile (a +:+ String "010" (blank +:+ String "010" b))
       = Return services).
Proof.
  intros Hblank. unfold parseProductsFile, parseServicesFile.
  by rewrite nonBlankLines_insert.
Qed.

Lemma length_split sep (s : string) :
  length (split sep s) = S (occurrences sep s).
Proof.
  induction s as [|c t IH]; simpl; [done|].
  case_decide; simpl; [by rewrite IH|].
  pose proof (split_nonempty sep t).
  destruct (split sep t); [done|]. by rewrite <-IH.
Qed.

Lemma parseProductLine_fields (line : string) index :
  parseProductLine line index
  = Throw (mkParseError (index + 1) (ExpectedFourFields line))
  ↔ length (split "," line) ≠ 4%nat.
Proof.
  unfold parseProductLine.
  destruct (split "," line) as [|p0 [|p1 [|p2 [|p3 [|p4 l]]]]]; simpl;
    try (split; [intros _; lia|done]).
  split; [|done]. intros Hthrow. exfalso.
  repeat (case_match; simplify_eq/=; try done).
Qed.

Lemma parseServiceLine_fields (line : string) index :
  parseServiceLine line index
  = Throw (mkParseError (index + 1) (ExpectedFourFields line))
  ↔ length (split "," line) ≠ 4%nat.
Proof.
  unfold parseServiceLine.
  destruct (split "," line) as [|p0 [|p1 [|p2 [|p3 [|p4 l]]]]]; simpl;
    try (split; [intros _; lia|done]).
  split; [|done]. intros Hthrow. exfalso.
  repeat (case_match; simplify_eq/=; try done).
Qed.

(** X15. A line is rejected for its number of fields exactly when it does
    not hold three commas: a missing field, an extra field or a comma
    inside a name gives the "four fields expected" error, in both
    parsers. *)
Theorem field_count_checked (line : string) index :
  (parseProductLine line index
   = Throw (mkParseError (index + 1) (ExpectedFourFields line))
   ↔ occurrences "," line ≠ 3%nat)
  ∧ (parseServiceLine line index
     = Throw (mkParseError (index + 1) (ExpectedFourFields line))
     ↔ occurrences "," line ≠ 3%nat).
Proof.
  rewrite parseProductLine_fields, parseServiceLine_fields, length_split.
  split; split; lia.
Qed.

(** ** The handler of the button *)

Lemma parseProductsFile_empty content products :
  parseProductsFile content = Return products →
  length products = 0%nat ↔ nonBlankLines content = [].
Proof.
  intros [Hlen _]%parseProductsFile_valid. rewrite Hlen.
  split; [apply nil_length_inv|by intros ->].
Qed.

(** X16. The handler reports missing files exactly when one of the two
    contents is empty, and it reports a product file without valid data
    exactly when both contents are given, the product file holds blank
    lines only and the service file parses. *)
Theorem handler_input_errors (productsFileContent servicesFileContent : string) :
  (handleProcess productsFileContent servicesFileContent = Throw FilesMissing
   ↔ productsFileContent = EmptyString ∨ servicesFileContent = EmptyString)
  ∧ (handleProcess productsFileContent servicesFileContent
     = Throw NoValidProducts
     ↔ productsFileContent ≠ EmptyString
       ∧ servicesFileContent ≠ EmptyString
       ∧ nonBlankLines productsFileContent = []
       ∧ ∃ services, parseServicesFile servicesFileContent = Return services).
Proof.
  unfold handleProcess. case_decide as Hmissing.
  { split; [done|]. split; [done|]. tauto. }
  destruct (parseProductsFile productsFileContent) as [products|e] eqn:Hp.
  - pose proof (parseProductsFile_empty _ _ Hp) as Hempty.
    destruct (parseServicesFile servicesFileContent) as [services|e] eqn:Hs.
    + case_decide as Hlen.
      * split; [done|]. split; [|done]. intros _.
        split_and!; [tauto|tauto|by apply Hempty|by eexists].
      * split; [done|]. split; [done|]. intros (_ & _ & Hnil & _).
        by apply Hempty in Hnil.
    + split; [done|]. split; [done|]. by intros (_ & _ & _ & services & ?).
  - split; [done|]. split; [done|]. intros (_ & _ & Hnil & _).
    unfold parseProductsFile in Hp. by rewrite Hnil in Hp.
Qed.

(** X17. The parse error that the handler reports is the one of the
    product file when that file has one, and else the one of the service
    file, which comes before the check for an empty product list. *)
Theorem handler_parse_error (productsFileContent servicesFileContent : string)
    e :
  handleProcess productsFileContent servicesFileContent = Throw (ParseFailed e)
  ↔ productsFileContent ≠ EmptyString
    ∧ servicesFileContent ≠ EmptyString
    ∧ (parseProductsFile productsFileContent = Throw e
       ∨ (∃ products, parseProductsFile productsFileContent = Return products)
         ∧ parseServicesFile servicesFileContent = Throw e).
Proof.
  unfold handleProcess. case_decide as Hmissing.
  { split; [done|]. tauto. }
  destruct (parseProductsFile productsFileContent) as [products|e1].
  - destruct (parseServicesFile servicesFileContent) as [services|e2].
    + case_decide; (split; [done|]); by intros (_ & _ & [?|[_ ?]]).
    + split.
      * intros [= ->]. split_and!; [tauto..|]. right. split; [by eexists|done].
      * intros (_ & _ & [?|[_ [= ->]]]); done.
  - split.
    + intros [= ->]. split_and!; [tauto..|]. by left.
    + intros (_ & _ & [[= ->]|[[? ?] _]]); done.
Qed.



(** X24. Over exact rational arithmetic (no rounding, no overflow), when the
    handler succeeds every row of the report has
    [initialCost <= costAfterGeneralServices <= finalCost], and the final
    costs of the rows add up to at most the total global cost of the
    report: the parsers let no negative number through. *)
Theorem handler_success_costs
    (productsFileContent servicesFileContent : string) report :
  handleProcess productsFileContent servicesFileContent = Return report →
  Forall (λ p, initialCost p ≤ costAfterGeneralServices p
               ∧ costAfterGeneralServices p ≤ finalCost p)
    (processedProducts report)
  ∧ sumOf finalCost (processedProducts report) ≤ totalGlobalCost report.
Proof.
  unfold handleProcess. case_decide; [done|].
  destruct (parseProductsFile productsFileContent) as [products|] eqn:Hp;
    [|done].
  destruct (parseServicesFile servicesFileContent) as [services|] eqn:Hs;
    [|done].
  case_decide as Hlen; [done|]. intros [= <-]. simpl.
  apply parseProductsFile_valid in Hp as [_ Hvalidp].
  apply parseServicesFile_valid in Hs as [_ Hvalids].
  assert (nonNegativeInput products services) as Hinput.
  { split.
    - eapply Forall_impl; [exact Hvalidp|]. by intros q (? & ? & _).
    - eapply Forall_impl; [exact Hvalids|]. by intros s (? & _). }
  split.
  - eapply Forall_impl; [by apply costsMonotone_output|].
    by intros p (_ & ? & ?).
  - by apply final_sum_bounded.
Qed.

(** ** Quantities with something after the digits *)

Lemma trimStart_app (s x : string) :
  trimStart s ≠ EmptyString → trimStart (s +:+ x) = trimStart s +:+ x.
Proof.
  induction s as [|c s IH]; simpl; [done|].
  change (String.append s x) with (s +:+ x).
  destruct (Ascii.is_space c); [done|]. done.
Qed.

Lemma readSign_app (s x : string) :
  s ≠ EmptyString →
  readSign (s +:+ x) = ((readSign s).1, (readSign s).2 +:+ x).
Proof.
  destruct s as [|c s]; [done|]. intros _.
  by destruct c as [[] [] [] [] [] [] [] []].
Qed.

Lemma spanDigits_app (s : string) c (t : string) :
  Ascii.is_nat c = None →
  (spanDigits (s +:+ String c t)).1 = (spanDigits s).1.
Proof.
  intros Hc. induction s as [|d s IH]; simpl.
  - by rewrite Hc.
  - change (String.append s (String c t)) with (s +:+ String c t).
    destruct (Ascii.is_nat d); [|done].
    destruct (spanDigits (s +:+ String c t)), (spanDigits s). simpl in *.
    by rewrite IH.
Qed.

(** X19. [parseInt] stops at the first character that is not a digit: a
    text that is read as an integer is read as the same integer when
    anything that starts with another character than a digit is appended
    (a decimal part, a unit), so a fractional quantity is truncated and not
    rejected. *)
Theorem parseInt_ignores_rest (s : string) c (t : string) (v : Qc) :
  parseInt s = Some v →
  Ascii.is_nat c = None →
  parseInt (s +:+ String c t) = Some v.
Proof.
  unfold parseInt. intros Hparse Hc.
  assert (trimStart s ≠ EmptyString) as Hs.
  { intros Hs. by rewrite Hs in Hparse. }
  rewrite trimStart_app, readSign_app by done.
  destruct (readSign (trimStart s)) as [negative s1]. simpl.
  pose proof (spanDigits_app s1 c t Hc) as Hdigits.
  destruct (spanDigits s1) as [ds rest], (spanDigits (s1 +:+ String c t))
    as [ds' rest']. simpl in Hdigits. by subst.
Qed.

(** ** The index that step 2 writes to *)

(** X20. In a run of step 2 the search of [findIndex] never fails: for a
    product of the array it finds an index, not after the product's own,
    whose product has the same name, unit cost, quantity and tariff rate,
    and which is the first such index. *)
Theorem findIndex_finds tpp i mp :
  tpp !! i = Some mp →
  ∃ j p, findIndex (sameProduct mp) tpp = Some j
    ∧ (j ≤ i)%nat
    ∧ tpp !! j = Some p
    ∧ product p = product mp
    ∧ ∀ k q, (k < j)%nat → tpp !! k = Some q → product q ≠ product mp.
Proof.
  intros Hi. unfold findIndex.
  destruct (list_find (sameProduct mp) tpp) as [[j p]|] eqn:Hfind; simpl.
  - apply list_find_Some in Hfind as (Hj & Hp & Hfirst).
    exists j, p. split_and!; [done| |done|by apply sameProduct_iff|].
    + destruct (decide (j ≤ i)%nat) as [|Hgt]; [done|].
      destruct (Hfirst i mp Hi); [lia|]. by apply sameProduct_iff.
    + intros k q Hk Hq ?%sameProduct_iff. by eapply Hfirst.
  - apply list_find_None in Hfind. rewrite Forall_forall in Hfind.
    destruct (Hfind mp); [by eapply list_elem_of_lookup_2|].
    by apply sameProduct_iff.
Qed.

(** ** Services that cost nothing *)

Lemma distributeRule_zero_cost services tpp r :
  totalCostForThisRule services r = 0 → distributeRule services tpp r = tpp.
Proof.
  intros Hzero. unfold distributeRule. rewrite Hzero.
  case_decide; [done|]. rewrite decide_False; [done|].
  intros [Hlt _]. by apply Qclt_not_eq in Hlt.
Qed.

(** X21. Services that all cost zero, and so an empty list of services,
    change nothing: the output is the array of the products with their
    initial cost as cost after general services and as final cost, and no
    allocation. *)
Theorem free_services_change_nothing products services :
  Forall (λ s, cost s = 0) services →
  calculateDistributedCosts products services = initProcessed <$> products.
Proof.
  intros Hfree. unfold calculateDistributedCosts.
  rewrite distributeComun_none.
  - unfold distributeSpecific. generalize (specificTariffRules services).
    intros rules. induction rules as [|r rules IH]; [done|].
    cbn [fold_left]. rewrite distributeRule_zero_cost; [done|].
    apply sumOf_all_zero, Forall_forall.
    intros s [_ Hs]%list_elem_of_filter. rewrite Forall_forall in Hfree.
    by apply Hfree.
  - apply sumOf_all_zero, Forall_forall.
    intros s [_ Hs]%list_elem_of_filter. rewrite Forall_forall in Hfree.
    by apply Hfree.
Qed.

(** ** The order of the services *)

Lemma addSpecific_zero p : addSpecific 0 p = p.
Proof.
  destruct p. unfold addSpecific. simpl. f_equal; ring.
Qed.

Lemma addSpecific_add a b p :
  addSpecific b (addSpecific a p) = addSpecific (a + b) p.
Proof. unfold addSpecific. simpl. f_equal; ring. Qed.

Lemma addSpecific_comm a b p :
  addSpecific b (addSpecific a p) = addSpecific a (addSpecific b p).
Proof. unfold addSpecific. simpl. f_equal; ring. Qed.

Lemma zip_addSpecific_zero tpp :
  zip_with addSpecific (replicate (length tpp) 0) tpp = tpp.
Proof.
  induction tpp as [|p tpp IH]; [done|]. simpl.
  by rewrite addSpecific_zero, IH.
Qed.

Lemma zip_addSpecific_add (d d' : list Qc) tpp :
  zip_with addSpecific d' (zip_with addSpecific d tpp)
  = zip_with addSpecific (zip_with Qcplus d d') tpp.
Proof.
  revert d d'. induction tpp as [|p tpp IH]; intros [|x d] [|x' d']; try done.
  simpl. by rewrite addSpecific_add, IH.
Qed.

Lemma zip_addSpecific_comm (d d' : list Qc) tpp :
  zip_with addSpecific d' (zip_with addSpecific d tpp)
  = zip_with addSpecific d (zip_with addSpecific d' tpp).
Proof.
  revert d d'. induction tpp as [|p tpp IH]; intros [|x d] [|x' d']; try done.
  simpl. by rewrite addSpecific_comm, IH.
Qed.

Lemma alter_addSpecific_zip a j tpp :
  alter (addSpecific a) j tpp
  = zip_with addSpecific (<[j:=a]> (replicate (length tpp) 0)) tpp.
Proof.
  revert j. induction tpp as [|p tpp IH]; intros [|j]; simpl; try done.
  - by rewrite zip_addSpecific_zero.
  - rewrite addSpecific_zero. f_equal. apply IH.
Qed.

Lemma lookup_same_frame tpp tpp' i p :
  frame <$> tpp = frame <$> tpp' →
  tpp !! i = Some p →
  ∃ p', tpp' !! i = Some p' ∧ frame p' = frame p.
Proof.
  intros Heq Hi. apply (f_equal (.!! i)) in Heq.
  rewrite !list_lookup_fmap, Hi in Heq.
  destruct (tpp' !! i) as [p'|]; [|done]. exists p'.
  split; [done|]. simpl in Heq. congruence.
Qed.

Lemma frame_product p p' : frame p = frame p' → product p = product p'.
Proof. by intros [= ? _ _ _]. Qed.

Lemma frame_costAfterGeneralServices p p' :
  frame p = frame p' → costAfterGeneralServices p = costAfterGeneralServices p'.
Proof. by intros [= _ _ ? _]. Qed.

(** Two arrays with the same frames receive the same writes from a turn of
    the inner loop. *)
Lemma allocateTo_same_writes totalBase totalCost tpp tpp' i :
  frame <$> tpp = frame <$> tpp' →
  ∃ d : list Qc,
    allocateTo totalBase totalCost tpp i = zip_with addSpecific d tpp
    ∧ allocateTo totalBase totalCost tpp' i = zip_with addSpecific d tpp'.
Proof.
  intros Hfr.
  assert (length tpp = length tpp') as Hlen.
  { by rewrite <-(length_fmap frame tpp), Hfr, length_fmap. }
  destruct (tpp !! i) as [mp|] eqn:Hi.
  - destruct (lookup_same_frame _ _ _ _ Hfr Hi) as (mp' & Hi' & Hmp).
    destruct (allocateTo_alter totalBase totalCost tpp i mp Hi)
      as (j & p & Hj & Hp & _ & Hfirst & ->).
    destruct (allocateTo_alter totalBase totalCost tpp' i mp' Hi')
      as (j' & p' & Hj' & Hp' & _ & Hfirst' & ->).
    rewrite (frame_costAfterGeneralServices _ _ Hmp).
    assert (j' = j) as ->.
    { destruct (lookup_same_frame _ _ _ _ Hfr Hj) as (q' & Hq' & Hq).
      symmetry in Hfr.
      destruct (lookup_same_frame _ _ _ _ Hfr Hj') as (q & Hq0 & Hq1).
      apply frame_product in Hmp, Hq, Hq1.
      destruct (lt_eq_lt_dec j j') as [[Hlt| ->]|Hlt]; [|done|].
      - destruct (Hfirst' j q' Hq' Hlt). congruence.
      - destruct (Hfirst j' q Hq0 Hlt). congruence. }
    eexists. split; [apply alter_addSpecific_zip|].
    rewrite Hlen. apply alter_addSpecific_zip.
  - assert (tpp' !! i = None) as Hi'.
    { apply lookup_ge_None. rewrite <-Hlen. by apply lookup_ge_None. }
    unfold allocateTo. rewrite Hi, Hi'.
    exists (replicate (length tpp) 0). split.
    + by rewrite zip_addSpecific_zero.
    + by rewrite Hlen, zip_addSpecific_zero.
Qed.

Lemma forEach_same_writes totalBase totalCost matching tpp tpp' :
  frame <$> tpp = frame <$> tpp' →
  ∃ d : list Qc,
    fold_left (allocateTo totalBase totalCost) matching tpp
    = zip_with addSpecific d tpp
    ∧ fold_left (allocateTo totalBase totalCost) matching tpp'
      = zip_with addSpecific d tpp'.
Proof.
  revert tpp tpp'. induction matching as [|i l IH]; intros tpp tpp' Hfr.
  - assert (length tpp = length tpp') as Hlen.
    { by rewrite <-(length_fmap frame tpp), Hfr, length_fmap. }
    exists (replicate (length tpp) 0). simpl. split.
    + by rewrite zip_addSpecific_zero.
    + by rewrite Hlen, zip_addSpecific_zero.
  - cbn [fold_left].
    destruct (allocateTo_same_writes totalBase totalCost tpp tpp' i Hfr)
      as (d0 & Hd0 & Hd0').
    destruct (IH (allocateTo totalBase totalCost tpp i)
                 (allocateTo totalBase totalCost tpp' i)) as (d & Hd & Hd').
    { by rewrite !frame_allocateTo. }
    exists (zip_with Qcplus d0 d).
    by rewrite Hd, Hd', Hd0, Hd0', !zip_addSpecific_add.
Qed.

Lemma indicesFrom_Forall2 {A} (P : A → Prop) `{∀ x, Decision (P x)}
    (xs ys : list A) (k : nat) :
  Forall2 (λ x y, P x ↔ P y) xs ys →
  indicesFrom P k xs = indicesFrom P k ys.
Proof.
  intros Hxy. revert k. induction Hxy as [|x y xs ys Hiff _ IH]; intros k;
    [done|].
  simpl. rewrite IH. destruct (decide (P x)), (decide (P y)); tauto.
Qed.

Lemma matchingProducts_frame tpp tpp' r :
  frame <$> tpp = frame <$> tpp' →
  matchingProducts tpp r = matchingProducts tpp' r.
Proof.
  intros Hfr. apply indicesFrom_Forall2.
  apply list_eq_Forall2 in Hfr. rewrite Forall2_fmap in Hfr.
  eapply Forall2_impl; [exact Hfr|]. intros p p' Hp. simpl in Hp.
  unfold hasRate. by rewrite (frame_product _ _ Hp).
Qed.

Lemma distributeRule_same_writes services tpp tpp' r :
  frame <$> tpp = frame <$> tpp' →
  ∃ d : list Qc,
    distributeRule services tpp r = zip_with addSpecific d tpp
    ∧ distributeRule services tpp' r = zip_with addSpecific d tpp'.
Proof.
  intros Hfr.
  assert (length tpp = length tpp') as Hlen.
  { by rewrite <-(length_fmap frame tpp), Hfr, length_fmap. }
  assert (∃ d : list Qc, tpp = zip_with addSpecific d tpp
                         ∧ tpp' = zip_with addSpecific d tpp') as Hsame.
  { exists (replicate (length tpp) 0). split.
    - by rewrite zip_addSpecific_zero.
    - by rewrite Hlen, zip_addSpecific_zero. }
  unfold distributeRule.
  rewrite !totalBase_filter, <-(matchingProducts_frame tpp tpp' r Hfr).
  rewrite <-(totalBaseForRule_frame tpp tpp' r Hfr).
  case_decide; [done|]. case_decide; [|done].
  by apply forEach_same_writes.
Qed.

(** Two rules can be distributed in either order. *)
Lemma distributeRule_comm services tpp r r' :
  distributeRule services (distributeRule services tpp r) r'
  = distributeRule services (distributeRule services tpp r') r.
Proof.
  destruct (distributeRule_same_writes services tpp
              (distributeRule services tpp r') r) as (d & Hd & Hd').
  { symmetry. apply frame_distributeRule. }
  destruct (distributeRule_same_writes services tpp
              (distributeRule services tpp r) r') as (d' & Hd0 & Hd0').
  { symmetry. apply frame_distributeRule. }
  rewrite Hd0', Hd', Hd, Hd0.
  apply zip_addSpecific_comm.
Qed.

Lemma fold_left_Permutation {A B} (f : A → B → A) (xs ys : list B) :
  (∀ b x y, f (f b x) y = f (f b y) x) →
  xs ≡ₚ ys → ∀ b, fold_left f xs b = fold_left f ys b.
Proof.
  intros Hcomm Hperm.
  induction Hperm as [|x xs ys _ IH|x y xs|xs ys zs _ IH1 _ IH2]; intros b.
  - done.
  - simpl. apply IH.
  - simpl. by rewrite Hcomm.
  - by rewrite IH1.
Qed.

Lemma sumOf_Permutation {A} (f : A → Qc) (xs ys : list A) :
  xs ≡ₚ ys → sumOf f xs = sumOf f ys.
Proof.
  intros Hperm.
  induction Hperm as [|x xs ys _ IH|x y xs|xs ys zs _ IH1 _ IH2].
  - done.
  - by rewrite !sumOf_cons, IH.
  - rewrite !sumOf_cons. ring.
  - by rewrite IH1.
Qed.

Lemma distributeRule_Permutation services services' tpp r :
  services ≡ₚ services' →
  distributeRule services tpp r = distributeRule services' tpp r.
Proof.
  intros Hperm. unfold distributeRule, totalCostForThisRule.
  rewrite (sumOf_Permutation cost (servicesForThisRule services r)
             (servicesForThisRule services' r)); [done|].
  unfold servicesForThisRule. by rewrite Hperm.
Qed.

Lemma distributeComun_Permutation services services' tpp :
  services ≡ₚ services' →
  distributeComun services tpp = distributeComun services' tpp.
Proof.
  intros Hperm. unfold distributeComun, totalComunServiceCost.
  rewrite (sumOf_Permutation cost (comunServices services)
             (comunServices services')); [done|].
  unfold comunServices. by rewrite Hperm.
Qed.

Lemma specificTariffRules_Permutation services services' :
  services ≡ₚ services' →
  specificTariffRules services ≡ₚ specificTariffRules services'.
Proof.
  intros Hperm. apply NoDup_Permutation; try apply NoDup_specificTariffRules.
  intros r. rewrite !elem_of_specificTariffRules.
  split; intros (s & Hs & ?); exists s; (split; [|done]).
  - by rewrite <-Hperm.
  - by rewrite Hperm.
Qed.

(** X22. The result does not depend on the order of the services: two
    lists of services that are permutations of each other give the same
    output. *)
Theorem service_order_irrelevant products services services' :
  services ≡ₚ services' →
  calculateDistributedCosts products services
  = calculateDistributedCosts products services'.
Proof.
  intros Hperm. unfold calculateDistributedCosts, distributeSpecific.
  rewrite (distributeComun_Permutation services services' _ Hperm).
  rewrite (fold_left_Permutation _ _ (specificTariffRules services')).
  - apply fold_left_ext_in. intros tpp r _.
    by apply distributeRule_Permutation.
  - intros tpp r r'. apply distributeRule_comm.
  - by apply specificTariffRules_Permutation.
Qed.

(** ** The scenarios, through the further properties *)

Lemma final_cost_at_most_global_witness :
  nonNegativeInput productsB (servicesB ++ [orphanService])
  ∧ sumOf finalCost
      (calculateDistributedCosts productsB (servicesB ++ [orphanService]))
    ≤ sumOf (λ q, unitCost q * quantity q) productsB
      + sumOf cost (servicesB ++ [orphanService]).
Proof.
  assert (nonNegativeInput productsB (servicesB ++ [orphanService]))
    as Hinput.
  { split; repeat constructor; compute_done. }
  split; [exact Hinput|].
  apply (final_cost_at_most_global productsB (servicesB ++ [orphanService])
           Hinput).
Defined.

Lemma final_cost_is_global_witness :
  nonNegativeInput productsB servicesB
  ∧ 0 < totalInitialProductValue (initProcessed <$> productsB)
  ∧ sumOf finalCost (calculateDistributedCosts productsB servicesB)
    = sumOf (λ q, unitCost q * quantity q) productsB + sumOf cost servicesB.
Proof.
  assert (nonNegativeInput productsB servicesB) as Hinput.
  { split; repeat constructor; compute_done. }
  assert (0 < totalInitialProductValue (initProcessed <$> productsB))
    as Hvalue by compute_done.
  split_and!; [exact Hinput|exact Hvalue|].
  apply (final_cost_is_global productsB servicesB Hinput Hvalue).
  intros r Hr.
  assert (r = "T1"%string) as ->.
  { apply list_elem_of_singleton. exact Hr. }
  compute_done.
Defined.

Lemma factor_at_least_one_witness :
  nonNegativeInput productsA servicesA
  ∧ Forall (λ p,
        0 < unitCost (product p) → 0 < quantity (product p) →
        ∃ ratio, costIncreaseFactor p = Times ratio
          ∧ 1 ≤ ratio
          ∧ ratio * initialCost p = finalCost p)
      (calculateDistributedCosts productsA servicesA).
Proof.
  assert (nonNegativeInput productsA servicesA) as Hinput.
  { split; repeat constructor; compute_done. }
  split; [exact Hinput|].
  apply (factor_at_least_one productsA servicesA Hinput).
Defined.

Lemma final_unit_cost_bounds_witness :
  nonNegativeInput productsA servicesA
  ∧ Forall (λ p,
        0 < quantity (product p) →
        unitCost (product p) ≤ finalUnitCost p
        ∧ finalUnitCost p * quantity (product p) = finalCost p)
      (calculateDistributedCosts productsA servicesA).
Proof.
  assert (nonNegativeInput productsA servicesA) as Hinput.
  { split; repeat constructor; compute_done. }
  split; [exact Hinput|].
  apply (final_unit_cost_bounds productsA servicesA Hinput).
Defined.

Lemma parsed_products_valid_witness :
  ∃ products,
    parseProductsFile "Widget, 10.5, 5, R1" = Return products
    ∧ length products = length (nonBlankLines "Widget, 10.5, 5, R1")
    ∧ Forall (λ q, 0 ≤ unitCost q ∧ 0 ≤ quantity q
                   ∧ name q ≠ EmptyString ∧ tariffRate q ≠ EmptyString)
        products.
Proof.
  eexists. split; [vm_compute; reflexivity|].
  apply (parsed_products_valid "Widget, 10.5, 5, R1").
  vm_compute. reflexivity.
Defined.

Lemma parsed_services_valid_witness :
  ∃ services,
    parseServicesFile "P1,Freight,50,comun" = Return services
    ∧ length services = length (nonBlankLines "P1,Freight,50,comun")
    ∧ Forall (λ s, 0 ≤ cost s ∧ providerName s ≠ EmptyString
                   ∧ serviceName s ≠ EmptyString
                   ∧ distributionRule s ≠ EmptyString)
        services.
Proof.
  eexists. split; [vm_compute; reflexivity|].
  apply (parsed_services_valid "P1,Freight,50,comun").
  vm_compute. reflexivity.
Defined.

Lemma parse_error_is_first_witness :
  parseProductsFile productsText
  = Throw (mkParseError 2 (InvalidUnitCost "abc"))
  ∧ nonBlankLines productsText !! 0%nat = Some "Widget,10,5,R1"%string
  ∧ ∃ q, parseProductLine "Widget,10,5,R1" 0 = Return q.
Proof.
  assert (parseProductsFile productsText
          = Throw (mkParseError 2 (InvalidUnitCost "abc"))) as Hthrow
    by reflexivity.
  split_and!; [exact Hthrow|reflexivity|].
  destruct (parse_error_is_first productsText
              (mkParseError 2 (InvalidUnitCost "abc"))) as [Hfirst _].
  apply (Hfirst Hthrow 0%nat "Widget,10,5,R1"%string); [simpl; lia|].
  reflexivity.
Defined.

Lemma blank_lines_ignored_witness :
  nonBlankLines "  " = []
  ∧ ∃ products,
      parseProductsFile ("A,1,2,T1" +:+ String "010" "B,3,4,T2")
      = Return products
      ∧ parseProductsFile
          ("A,1,2,T1" +:+ String "010" ("  " +:+ String "010" "B,3,4,T2"))
        = Return products.
Proof.
  assert (nonBlankLines "  " = []) as Hblank by reflexivity.
  split; [exact Hblank|].
  destruct (blank_lines_ignored "A,1,2,T1" "  " "B,3,4,T2" Hblank)
    as [Hproducts _].
  eexists. split; [vm_compute; reflexivity|].
  apply Hproducts. vm_compute. reflexivity.
Defined.


Lemma handler_success_costs_witness :
  ∃ report,
    handleProcess "Widget,10,5,R1" "P1,Freight,50,comun" = Return report
    ∧ sumOf finalCost (processedProducts report) ≤ totalGlobalCost report.
Proof.
  eexists. split; [vm_compute; reflexivity|].
  destruct (handler_success_costs "Widget,10,5,R1" "P1,Freight,50,comun" _
              ltac:(vm_compute; reflexivity))
    as [_ Hbound].
  exact Hbound.
Defined.

Lemma parseInt_ignores_rest_witness :
  ∃ v, parseInt "5" = Some v
    ∧ Ascii.is_nat "." = None
    ∧ parseInt ("5" +:+ String "." "9") = Some v.
Proof.
  eexists. split; [reflexivity|]. split; [reflexivity|].
  apply (parseInt_ignores_rest "5" "." "9"); reflexivity.
Defined.

Lemma findIndex_finds_witness :
  (initProcessed <$> productsTwice) !! 1%nat
  = Some (initProcessed (mkProduct "A" (num 10) (num 1) "T1"))
  ∧ ∃ j p,
      findIndex (sameProduct (initProcessed (mkProduct "A" (num 10) (num 1) "T1")))
        (initProcessed <$> productsTwice) = Some j
      ∧ (j ≤ 1)%nat
      ∧ (initProcessed <$> productsTwice) !! j = Some p
      ∧ product p = mkProduct "A" (num 10) (num 1) "T1".
Proof.
  assert ((initProcessed <$> productsTwice) !! 1%nat
          = Some (initProcessed (mkProduct "A" (num 10) (num 1) "T1")))
    as Hline by reflexivity.
  split; [exact Hline|].
  destruct (findIndex_finds (initProcessed <$> productsTwice) 1
              (initProcessed (mkProduct "A" (num 10) (num 1) "T1")) Hline)
    as (j & p & Hfind & Hle & Hj & Hp & _).
  exists j, p. split_and!; [exact Hfind|exact Hle|exact Hj|exact Hp].
Defined.

Lemma free_services_change_nothing_witness :
  Forall (λ s, cost s = 0) [mkService "P1" "Gift" 0 "T1"]
  ∧ calculateDistributedCosts productsB [mkService "P1" "Gift" 0 "T1"]
    = initProcessed <$> productsB.
Proof.
  assert (Forall (λ s, cost s = 0) [mkService "P1" "Gift" 0 "T1"]) as Hfree.
  { repeat constructor. }
  split; [exact Hfree|].
  apply (free_services_change_nothing productsB _ Hfree).
Defined.

Lemma service_order_irrelevant_witness :
  [orphanService; upperCaseService] ≡ₚ [upperCaseService; orphanService]
  ∧ calculateDistributedCosts productsB [orphanService; upperCaseService]
    = calculateDistributedCosts productsB [upperCaseService; orphanService].
Proof.
  assert ([orphanService; upperCaseService]
          ≡ₚ [upperCaseService; orphanService]) as Hperm
    by apply Permutation_swap.
  split; [exact Hperm|].
  apply (service_order_irrelevant productsB _ _ Hperm).
Defined.

(** ** Fields are trimmed *)















(** ** More scenarios, through the further properties *)

Lemma worthless_line_receives_nothing_witness :
  ∃ p,
    calculateDistributedCosts
      [mkProduct "Sample" 0 (num 3) "T1"; mkProduct "A" (num 10) (num 10) "T1"]
      (servicesA ++ servicesB) !! 0%nat = Some p
    ∧ unitCost (product p) = 0
    ∧ allocatedGeneralCostSum p = 0
    ∧ allocatedSpecificCostSum p = 0
    ∧ finalCost p = 0.
Proof.
  pose proof (worthless_line_receives_nothing
                [mkProduct "Sample" 0 (num 3) "T1";
                 mkProduct "A" (num 10) (num 10) "T1"]
                (servicesA ++ servicesB)) as Hall.
  eexists. split; [vm_compute; reflexivity|].
  split; [reflexivity|].
  eapply (proj1 (Forall_lookup _ _) Hall 0%nat); [vm_compute; reflexivity|].
  left. reflexivity.
Defined.



